(** * OS_Scheduler: the scheduling policies and resource protocols of pa2.c

    A shallow embedding of [src/pa2.c].  The globals of the C file
    ([current], [readyqueue], [resources]) and the process records they
    point to are gathered in one explicit [state] that every callback
    takes and returns.  A process pointer is the identity of the process;
    an intrusive [list_head] chain is the list of the identities it
    links.  A chain cannot hold a node twice, so the lists stand for the
    chains as long as no identity is queued twice, which is what the
    invariant of claim C1 shows the driver to maintain. *)

From stdpp Require Import base decidable option list numbers functions strings.

Local Open Scope Z_scope.

#[local] Set Warnings "-clear-no-such-hyp".

(** ** Data model *)

(** Modelled from the spec: [process.h] is not among the sources.  The
    spec (section 3) gives the statuses READY, RUNNING and WAITING; the
    code names two of them. *)
Inductive process_status : Set :=
  | PROCESS_READY
  | PROCESS_RUNNING
  | PROCESS_WAIT.

#[global] Instance process_status_eq_dec : EqDecision process_status.
Proof. solve_decision. Defined.

Definition pid := nat.

(** Modelled from the spec: the fields of [struct process] that pa2.c
    reads and writes ([process.h] is not among the sources).  The spec
    (section 3) gives them as numbers without a width, so they are
    unbounded integers, [prio++] is [+ 1] and [lifespan - age] is the
    difference. *)
Record process : Set := Process {
  status : process_status;
  age : Z;
  lifespan : Z;
  prio : Z;
  prio_orig : Z
}.

(** Modelled from the spec: the fields of [struct resource] that pa2.c
    reads and writes ([resource.h] is not among the sources). *)
Record resource : Set := Resource {
  owner : option pid;
  waitqueue : list pid
}.

(** [procs] is the memory holding the [struct process] records: a process
    pointer is the identity it is looked up with, and [NULL] is [None]. *)
Record state : Type := State {
  procs : pid → process;
  current : option pid;
  readyqueue : list pid;
  resources : list resource
}.

(** Field assignments. *)
Definition set_status (st : process_status) (p : process) : process :=
  Process st (age p) (lifespan p) (prio p) (prio_orig p).
Definition set_age (a : Z) (p : process) : process :=
  Process (status p) a (lifespan p) (prio p) (prio_orig p).
Definition set_prio (v : Z) (p : process) : process :=
  Process (status p) (age p) (lifespan p) v (prio_orig p).

Definition set_owner (o : option pid) (r : resource) : resource :=
  Resource o (waitqueue r).
Definition set_waitqueue (q : list pid) (r : resource) : resource :=
  Resource (owner r) q.

Definition with_procs (f : pid → process) (s : state) : state :=
  State f (current s) (readyqueue s) (resources s).
Definition with_current (c : option pid) (s : state) : state :=
  State (procs s) c (readyqueue s) (resources s).
Definition with_readyqueue (q : list pid) (s : state) : state :=
  State (procs s) (current s) q (resources s).
Definition with_resources (rs : list resource) (s : state) : state :=
  State (procs s) (current s) (readyqueue s) rs.

(** [p->field = v] on the record that [p] points to. *)
Definition update (p : pid) (f : process → process) (s : state) : state :=
  with_procs (alter f p (procs s)) s.

(** [resources[i].field = v]. *)
Definition update_resource (i : nat) (f : resource → resource) (s : state)
  : state :=
  with_resources (alter f i (resources s)) s.

(** ** The list primitives of list_head.h, on lists of identities *)

Definition list_add_tail (p : pid) (q : list pid) : list pid := q ++ [p].

Fixpoint list_del_init (p : pid) (q : list pid) : list pid :=
  match q with
  | [] => []
  | x :: q' => if decide (x = p) then q' else x :: list_del_init p q'
  end.

Definition list_first_entry (q : list pid) : option pid := head q.

(** [p->age < p->lifespan]: the process has remaining lifetime. *)
Definition unfinished (s : state) (p : pid) : Prop :=
  age (procs s p) < lifespan (procs s p).

#[global] Instance unfinished_dec s p : Decision (unfinished s p).
Proof. unfold unfinished. apply _. Defined.

(** The closing lines shared by every release function: detach [waiter]
    from the wait queue of the resource, mark it ready and chain it at
    the tail of the ready queue. *)
Definition wake_up (resource_id : nat) (waiter : pid) (s : state) : state :=
  let s1 := update_resource resource_id
              (λ r, set_waitqueue (list_del_init waiter (waitqueue r)) r) s in
  let s2 := update waiter (set_status PROCESS_READY) s1 in
  with_readyqueue (list_add_tail waiter (readyqueue s2)) s2.

(** ** FCFS resource protocol *)

(** [None] stands for undefined behaviour or a failed [assert]: an index
    outside the resource table, a [NULL] dereference. *)
Definition fcfs_acquire (resource_id : nat) (s : state)
  : option (bool * state) :=
  r ← resources s !! resource_id;
  match owner r with
  | None =>
      Some (true, update_resource resource_id (set_owner (current s)) s)
  | Some _ =>
      c ← current s;
      let s1 := update c (set_status PROCESS_WAIT) s in
      Some (false,
            update_resource resource_id
              (λ r, set_waitqueue (list_add_tail c (waitqueue r)) r) s1)
  end.

Definition fcfs_release (resource_id : nat) (s : state) : option state :=
  r ← resources s !! resource_id;
  guard (owner r = current s);;
  let s1 := update_resource resource_id (set_owner None) s in
  match list_first_entry (waitqueue r) with
  | None => Some s1
  | Some waiter =>
      guard (status (procs s1 waiter) = PROCESS_WAIT);;
      Some (wake_up resource_id waiter s1)
  end.

(** ** FIFO *)

Definition fifo_pick_next (s : state) : option pid * state :=
  match list_first_entry (readyqueue s) with
  | None => (None, s)
  | Some next =>
      (Some next, with_readyqueue (list_del_init next (readyqueue s)) s)
  end.

(** The test [!current || current->status == PROCESS_WAIT] jumps to
    [pick_next]; so does a current process whose lifetime is used up. *)
Definition fifo_schedule (s : state) : option pid * state :=
  match current s with
  | None => fifo_pick_next s
  | Some c =>
      if bool_decide (status (procs s c) = PROCESS_WAIT) then fifo_pick_next s
      else if bool_decide (unfinished s c) then (Some c, s)
      else fifo_pick_next s
  end.

(** [list_for_each_entry_safe (cur, curn, head, list) { body }]: the body
    runs once per entry, first to last; none of the loops of pa2.c
    unlinks an entry while it walks the list. *)
Definition list_for_each_entry_safe {A : Type} (body : A → pid → A)
    (head : list pid) (init : A) : A :=
  foldl body init head.

(** ** SJF *)

Definition sjf_pick_next (s : state) : option pid * state :=
  match list_first_entry (readyqueue s) with
  | None => (None, s)
  | Some first =>
      let next :=
        list_for_each_entry_safe
          (λ next cur,
             if bool_decide (lifespan (procs s next) > lifespan (procs s cur))
             then cur else next)
          (readyqueue s) first in
      (Some next, with_readyqueue (list_del_init next (readyqueue s)) s)
  end.

Definition sjf_schedule (s : state) : option pid * state :=
  match current s with
  | None => sjf_pick_next s
  | Some c =>
      if bool_decide (status (procs s c) = PROCESS_WAIT) then sjf_pick_next s
      else if bool_decide (unfinished s c) then (Some c, s)
      else sjf_pick_next s
  end.

(** ** SRTF *)

Definition srtf_pick_next (s : state) : option pid * state :=
  match list_first_entry (readyqueue s) with
  | None => (None, s)
  | Some first =>
      let next :=
        list_for_each_entry_safe
          (λ next cur,
             if bool_decide
                  (lifespan (procs s next) - age (procs s next)
                   > lifespan (procs s cur) - age (procs s cur))
             then cur else next)
          (readyqueue s) first in
      (Some next, with_readyqueue (list_del_init next (readyqueue s)) s)
  end.

Definition srtf_schedule (s : state) : option pid * state :=
  match current s with
  | None => srtf_pick_next s
  | Some c =>
      if bool_decide (status (procs s c) = PROCESS_WAIT) then srtf_pick_next s
      else if bool_decide (unfinished s c)
      then srtf_pick_next
             (with_readyqueue (list_add_tail c (readyqueue s)) s)
      else srtf_pick_next s
  end.

(** ** Round-robin *)

Definition rr_pick_next (s : state) : option pid * state :=
  match list_first_entry (readyqueue s) with
  | None => (None, s)
  | Some next =>
      (Some next, with_readyqueue (list_del_init next (readyqueue s)) s)
  end.

Definition rr_schedule (s : state) : option pid * state :=
  match current s with
  | None => rr_pick_next s
  | Some c =>
      if bool_decide (status (procs s c) = PROCESS_WAIT) then rr_pick_next s
      else if bool_decide (unfinished s c)
      then rr_pick_next (with_readyqueue (list_add_tail c (readyqueue s)) s)
      else rr_pick_next s
  end.

(** ** Priority *)

Definition prio_release (resource_id : nat) (s : state) : option state :=
  r ← resources s !! resource_id;
  guard (owner r = current s);;
  let s1 := update_resource resource_id (set_owner None) s in
  match list_first_entry (waitqueue r) with
  | None => Some s1
  | Some first =>
      let waiter :=
        list_for_each_entry_safe
          (λ waiter cur,
             if bool_decide (prio (procs s1 waiter) < prio (procs s1 cur))
             then cur else waiter)
          (waitqueue r) first in
      guard (status (procs s1 waiter) = PROCESS_WAIT);;
      Some (wake_up resource_id waiter s1)
  end.

Definition prio_pick_next (s : state) : option pid * state :=
  match list_first_entry (readyqueue s) with
  | None => (None, s)
  | Some first =>
      let next :=
        list_for_each_entry_safe
          (λ next cur,
             if bool_decide (prio (procs s next) < prio (procs s cur))
             then cur else next)
          (readyqueue s) first in
      (Some next, with_readyqueue (list_del_init next (readyqueue s)) s)
  end.

Definition prio_schedule (s : state) : option pid * state :=
  match current s with
  | None => prio_pick_next s
  | Some c =>
      if bool_decide (status (procs s c) = PROCESS_WAIT) then prio_pick_next s
      else if bool_decide (unfinished s c)
      then prio_pick_next
             (with_readyqueue (list_add_tail c (readyqueue s)) s)
      else prio_pick_next s
  end.

(** ** Priority with aging *)

(** One turn of the loop of [pa_schedule]: [cur->prio++], then the
    comparison of [next] with [cur], both read after the increment. *)
Definition pa_scan_body (acc : state * pid) (cur : pid) : state * pid :=
  let s1 := update cur (λ p, set_prio (prio p + 1) p) acc.1 in
  (s1, if bool_decide (prio (procs s1 acc.2) < prio (procs s1 cur))
       then cur else acc.2).

Definition pa_pick_next (s : state) : option pid * state :=
  match list_first_entry (readyqueue s) with
  | None => (None, s)
  | Some first =>
      let acc :=
        list_for_each_entry_safe pa_scan_body (readyqueue s) (s, first) in
      (Some acc.2,
       with_readyqueue (list_del_init acc.2 (readyqueue acc.1)) acc.1)
  end.

(** The code chains [current] at the tail and then resets its priority;
    both are done when the scan starts. *)
Definition pa_requeue (c : pid) (s : state) : state :=
  let s1 := with_readyqueue (list_add_tail c (readyqueue s)) s in
  update c (λ p, set_prio (prio_orig p) p) s1.

Definition pa_schedule (s : state) : option pid * state :=
  match current s with
  | None => pa_pick_next s
  | Some c =>
      if bool_decide (status (procs s c) = PROCESS_WAIT) then pa_pick_next s
      else if bool_decide (unfinished s c) then pa_pick_next (pa_requeue c s)
      else pa_pick_next s
  end.

(** ** Priority ceiling and priority inheritance protocols *)

Section Protocols.

(** [MAX_PRIO] is a macro of the missing [process.h]; the protocols are
    stated for any value of it. *)
Variable MAX_PRIO : Z.

Definition pcp_acquire (resource_id : nat) (s : state)
  : option (bool * state) :=
  r ← resources s !! resource_id;
  c ← current s;
  match owner r with
  | None =>
      let s1 := update c (set_prio MAX_PRIO) s in
      Some (true, update_resource resource_id (set_owner (Some c)) s1)
  | Some _ =>
      let s1 := update c (set_status PROCESS_WAIT) s in
      Some (false,
            update_resource resource_id
              (λ r, set_waitqueue (list_add_tail c (waitqueue r)) r) s1)
  end.

Definition pcp_release (resource_id : nat) (s : state) : option state :=
  r ← resources s !! resource_id;
  guard (owner r = current s);;
  c ← current s;
  let s1 := update c (λ p, set_prio (prio_orig p) p) s in
  let s2 := update_resource resource_id (set_owner None) s1 in
  match list_first_entry (waitqueue r) with
  | None => Some s2
  | Some waiter =>
      guard (status (procs s2 waiter) = PROCESS_WAIT);;
      Some (wake_up resource_id waiter s2)
  end.

Definition pip_acquire (resource_id : nat) (s : state)
  : option (bool * state) :=
  r ← resources s !! resource_id;
  match owner r with
  | None =>
      Some (true, update_resource resource_id (set_owner (current s)) s)
  | Some o =>
      c ← current s;
      let s1 := update o (set_prio (prio (procs s c))) s in
      let s2 := update c (set_status PROCESS_WAIT) s1 in
      Some (false,
            update_resource resource_id
              (λ r, set_waitqueue (list_add_tail c (waitqueue r)) r) s2)
  end.

Definition pip_release (resource_id : nat) (s : state) : option state :=
  r ← resources s !! resource_id;
  guard (owner r = current s);;
  o ← owner r;
  c ← current s;
  let s1 := update o (set_prio (prio_orig (procs s c))) s in
  let s2 := update_resource resource_id (set_owner None) s1 in
  match list_first_entry (waitqueue r) with
  | None => Some s2
  | Some first =>
      let waiter :=
        list_for_each_entry_safe
          (λ waiter cur,
             if bool_decide (prio (procs s2 waiter) < prio (procs s2 cur))
             then cur else waiter)
          (waitqueue r) first in
      guard (status (procs s2 waiter) = PROCESS_WAIT);;
      Some (wake_up resource_id waiter s2)
  end.

(** ** The scheduler catalogue *)

Record scheduler : Type := Scheduler {
  name : string;
  acquire : nat → state → option (bool * state);
  release : nat → state → option state;
  schedule : state → option pid * state
}.

Definition fifo_scheduler : scheduler :=
  Scheduler "FIFO" fcfs_acquire fcfs_release fifo_schedule.
Definition sjf_scheduler : scheduler :=
  Scheduler "Shortest-Job First" fcfs_acquire fcfs_release sjf_schedule.
Definition srtf_scheduler : scheduler :=
  Scheduler "Shortest Remaining Time First"
    fcfs_acquire fcfs_release srtf_schedule.
Definition rr_scheduler : scheduler :=
  Scheduler "Round-Robin" fcfs_acquire fcfs_release rr_schedule.
Definition prio_scheduler : scheduler :=
  Scheduler "Priority" fcfs_acquire prio_release prio_schedule.
Definition pa_scheduler : scheduler :=
  Scheduler "Priority + aging" fcfs_acquire fcfs_release pa_schedule.
Definition pcp_scheduler : scheduler :=
  Scheduler "Priority + PCP Protocol" pcp_acquire pcp_release prio_schedule.
Definition pip_scheduler : scheduler :=
  Scheduler "Priority + PIP Protocol" pip_acquire pip_release prio_schedule.

Definition schedulers : list scheduler :=
  [fifo_scheduler; sjf_scheduler; srtf_scheduler; rr_scheduler;
   prio_scheduler; pa_scheduler; pcp_scheduler; pip_scheduler].

End Protocols.

(** ** The driver

    The simulation loop that calls the three callbacks is not among the
    sources.  Sections 3, 5 and 6 of the spec give its contract, which the
    definitions below follow: it creates the processes and chains them at
    the tail of the ready queue; it calls [schedule] once per tick and
    installs the answer as the current process, which is thereby RUNNING,
    while the process it replaces goes back to READY unless it blocked; it
    advances the age of the running process; it calls [acquire] and
    [release] for the running process only, and after a denied [acquire]
    nothing but [schedule]. *)

(** Modelled from the spec: the state of the missing driver, which is the
    state of the callbacks and the count of the processes created so far;
    a new process gets the next number as its identity. *)
Record sim : Type := Sim {
  st : state;
  nr_forked : nat
}.

(** Modelled from the spec: the calls of the missing driver (section 6),
    with the creation of a process and the tick of the running one. *)
Inductive event : Set :=
  | Fork (life priority : Z)
  | Schedule
  | Run
  | Acquire (resource_id : nat)
  | Release (resource_id : nat).

(** Modelled from the spec: the initial state of the missing driver, with
    no current process, an empty ready queue and a table of free
    resources with empty wait queues.  [NR_RESOURCES] is a macro of the
    missing [resource.h]; the table has any size. *)
Definition boot (nr_resources : nat) : sim :=
  Sim (State (λ _, Process PROCESS_READY 0 0 0 0) None []
         (replicate nr_resources (Resource None [])))
      0.

(** Modelled from the spec: process creation by the missing driver, a
    new READY process of age 0 whose [prio] and [prio_orig] are the
    priority it is created with, chained at the tail of the ready
    queue. *)
Definition fork (life priority : Z) (m : sim) : sim :=
  let p := nr_forked m in
  let s := st m in
  let s1 :=
    with_procs (<[p := Process PROCESS_READY 0 life priority priority]>
                  (procs s)) s in
  Sim (with_readyqueue (list_add_tail p (readyqueue s1)) s1) (S p).

(** Modelled from the spec: what the missing driver does with the answer
    of [schedule] (section 3: a process is RUNNING iff it is the current
    one, otherwise READY or WAITING): the previous process, if it was
    RUNNING, is READY again, and the answer is the current process and
    RUNNING. *)
Definition install (prev next : option pid) (s : state) : state :=
  let s1 :=
    match prev with
    | Some p =>
        if bool_decide (status (procs s p) = PROCESS_RUNNING)
        then update p (set_status PROCESS_READY) s else s
    | None => s
    end in
  let s2 := with_current next s1 in
  match next with
  | Some n => update n (set_status PROCESS_RUNNING) s2
  | None => s2
  end.

(** The current process, if it is RUNNING. *)
Definition running (s : state) : option pid :=
  c ← current s;
  guard (status (procs s c) = PROCESS_RUNNING);;
  Some c.

(** Modelled from the spec: one call of the missing driver; [None] when
    the call is outside the contract (no running process to tick or to
    call [acquire] or [release] for) or the callback fails. *)
Definition drive (sch : scheduler) (e : event) (m : sim) : option sim :=
  match e with
  | Fork life priority => Some (fork life priority m)
  | Schedule =>
      let r := schedule sch (st m) in
      Some (Sim (install (current (st m)) r.1 r.2) (nr_forked m))
  | Run =>
      c ← running (st m);
      Some (Sim (update c (λ p, set_age (age p + 1) p) (st m)) (nr_forked m))
  | Acquire resource_id =>
      _ ← running (st m);
      r ← acquire sch resource_id (st m);
      Some (Sim r.2 (nr_forked m))
  | Release resource_id =>
      _ ← running (st m);
      s ← release sch resource_id (st m);
      Some (Sim s (nr_forked m))
  end.

(** A sequence of calls, from first to last. *)
Definition run (sch : scheduler) (es : list event) (m : sim) : option sim :=
  foldl (λ acc e, acc ≫= drive sch e) (Some m) es.

(** Modelled from the spec: a tick of the missing driver without resource
    requests: schedule, then run the chosen process, if any. *)
Definition tick (sch : scheduler) (m : sim) : option (option pid * sim) :=
  m1 ← drive sch Schedule m;
  match current (st m1) with
  | Some c => m2 ← drive sch Run m1; Some (Some c, m2)
  | None => Some (None, m1)
  end.

(** Who ran in each of [n] ticks. *)
Fixpoint ticks (sch : scheduler) (n : nat) (m : sim)
  : option (list (option pid) * sim) :=
  match n with
  | O => Some ([], m)
  | S n' =>
      r ← tick sch m;
      rs ← ticks sch n' r.2;
      Some (r.1 :: rs.1, rs.2)
  end.

(** ** What a selection scan returns *)

(** [n] sits in [q] at the first position where [key] is largest: the
    entries before it are strictly smaller, the entries after it are not
    larger. *)
Definition first_max (key : pid → Z) (q : list pid) (n : pid) : Prop :=
  ∃ l1 l2, q = l1 ++ n :: l2
    ∧ (∀ x, x ∈ l1 → key x < key n)
    ∧ (∀ x, x ∈ l2 → key x ≤ key n).

(** ** Words of the specification *)

(** The current process that goes on: it is there, it did not block and
    it has remaining lifetime. *)
Definition continues (s : state) : option pid :=
  c ← current s;
  guard (status (procs s c) ≠ PROCESS_WAIT);;
  guard (unfinished s c);;
  Some c.

(** The ready queue that the selection looks at in the policies that put
    the continuing process back at the tail. *)
Definition requeued (s : state) : list pid :=
  match continues s with
  | Some c => readyqueue s ++ [c]
  | None => readyqueue s
  end.

(** The answer [r] takes out of the queue [q] its first entry with the
    smallest (largest) [key], or is "none" on an empty queue; nothing
    else of [s] changes. *)
Definition picked_min (key : pid → Z) (q : list pid) (s : state)
    (r : option pid * state) : Prop :=
  (q = [] ∧ r = (None, with_readyqueue [] s))
  ∨ ∃ n l1 l2, q = l1 ++ n :: l2
      ∧ (∀ x, x ∈ l1 → key n < key x)
      ∧ (∀ x, x ∈ l2 → key n ≤ key x)
      ∧ r = (Some n, with_readyqueue (l1 ++ l2) s).

Definition picked_max (key : pid → Z) (q : list pid) (s : state)
    (r : option pid * state) : Prop :=
  (q = [] ∧ r = (None, with_readyqueue [] s))
  ∨ ∃ n l1 l2, q = l1 ++ n :: l2
      ∧ (∀ x, x ∈ l1 → key x < key n)
      ∧ (∀ x, x ∈ l2 → key x ≤ key n)
      ∧ r = (Some n, with_readyqueue (l1 ++ l2) s).

Definition picked_head (q : list pid) (s : state)
    (r : option pid * state) : Prop :=
  match q with
  | [] => r = (None, with_readyqueue [] s)
  | n :: q' => r = (Some n, with_readyqueue q' s)
  end.

(** ** Words for the aging scan *)

(** The record of [p] after one [p->prio++]. *)
Definition aged (p : process) : process := set_prio (prio p + 1) p.

(** The priority with which [p] enters the selection scan of
    [pa_schedule]: its [prio_orig] when it is the process being put back,
    its [prio] otherwise. *)
Definition entering (s : state) (p : pid) : Z :=
  if decide (continues s = Some p) then prio_orig (procs s p)
  else prio (procs s p).

(** ** Words for the places of the processes *)

(** The members of all the wait queues, resource after resource. *)
Definition waiting (s : state) : list pid :=
  concat (waitqueue <$> resources s).

(** The members of the ready queue and of all the wait queues. *)
Definition queued (s : state) : list pid := readyqueue s ++ waiting s.

(** Status, age and lifespan of every process are the same in [s']. *)
Definition same_life (s s' : state) : Prop :=
  ∀ p, status (procs s' p) = status (procs s p)
     ∧ age (procs s' p) = age (procs s p)
     ∧ lifespan (procs s' p) = lifespan (procs s p).

(** [s'] has the statuses, the current process and the queues of [s]. *)
Definition quiet (s s' : state) : Prop :=
  current s' = current s
  ∧ readyqueue s' = readyqueue s
  ∧ waitqueue <$> resources s' = waitqueue <$> resources s
  ∧ same_life s s'.

(** [s'] is [s] with [c] gone to WAITING in one more wait-queue entry. *)
Definition blocked (s : state) (c : pid) (s' : state) : Prop :=
  current s' = current s
  ∧ readyqueue s' = readyqueue s
  ∧ waiting s' ≡ₚ c :: waiting s
  ∧ status (procs s' c) = PROCESS_WAIT
  ∧ (∀ p, p ≠ c → status (procs s' p) = status (procs s p))
  ∧ (∀ p, age (procs s' p) = age (procs s p)
        ∧ lifespan (procs s' p) = lifespan (procs s p)).

(** [s'] is [s] with [w] moved from a wait queue to the tail of the ready
    queue, READY. *)
Definition woken (s : state) (w : pid) (s' : state) : Prop :=
  current s' = current s
  ∧ readyqueue s' = readyqueue s ++ [w]
  ∧ waiting s ≡ₚ w :: waiting s'
  ∧ status (procs s' w) = PROCESS_READY
  ∧ (∀ p, p ≠ w → status (procs s' p) = status (procs s p))
  ∧ (∀ p, age (procs s' p) = age (procs s p)
        ∧ lifespan (procs s' p) = lifespan (procs s p)).

(** The answer [next] was taken out of the queue [q], of which [s1] keeps
    the rest as its ready queue. *)
Definition taken (q : list pid) (next : option pid) (s1 : state) : Prop :=
  match next with
  | None => q = [] ∧ readyqueue s1 = []
  | Some n => ∃ l1 l2, q = l1 ++ n :: l2 ∧ readyqueue s1 = l1 ++ l2
  end.

(** What every [schedule] of the catalogue does to the places: the
    continuing process is kept, or the answer is taken out of the ready
    queue with the continuing process put back at its tail. *)
Definition sched_ok (s : state) (r : option pid * state) : Prop :=
  ((∃ c, continues s = Some c ∧ r = (Some c, s))
   ∨ taken (requeued s) r.1 r.2)
  ∧ current r.2 = current s
  ∧ resources r.2 = resources s
  ∧ same_life s r.2.

(** The places are in order: no process is queued twice, a ready-queue
    member is READY, a wait-queue member is WAITING, only the current
    process is RUNNING, an unfinished process that does not run is queued,
    and only created processes are around. *)
Record placed (m : sim) : Prop := Placed {
  placed_nodup : NoDup (queued (st m));
  placed_ready : ∀ p, p ∈ readyqueue (st m) →
                   status (procs (st m) p) = PROCESS_READY;
  placed_wait : ∀ p, p ∈ waiting (st m) →
                  status (procs (st m) p) = PROCESS_WAIT;
  placed_running : ∀ p, status (procs (st m) p) = PROCESS_RUNNING →
                     current (st m) = Some p;
  placed_current : ∀ c, current (st m) = Some c →
                     status (procs (st m) c) ≠ PROCESS_READY
                     ∧ (c < nr_forked m)%nat;
  placed_live : ∀ p, (p < nr_forked m)%nat → unfinished (st m) p →
                  status (procs (st m) p) ≠ PROCESS_RUNNING →
                  p ∈ queued (st m);
  placed_created : ∀ p, p ∈ queued (st m) → (p < nr_forked m)%nat
}.

(** What every [acquire] and [release] of the catalogue does to the
    places. *)
Definition acquire_ok (s : state) (r : bool * state) : Prop :=
  if r.1 then quiet s r.2
  else ∃ c, current s = Some c ∧ blocked s c r.2.

Definition release_ok (s s' : state) : Prop :=
  quiet s s' ∨ ∃ w, woken s w s'.

(** How many times [p] stands in the list [l]. *)
Definition occurrences (p : pid) (l : list pid) : nat :=
  length (filter (λ x, x = p) l).

(** The common course of the four release functions. *)
Definition release_course (i : nat) (s : state) (r : resource) (s' : state)
  : Prop :=
  owner r = current s
  ∧ ∃ s2, (∀ p, status (procs s2 p) = status (procs s p))
      ∧ current s2 = current s
      ∧ readyqueue s2 = readyqueue s
      ∧ resources s2 = alter (set_owner None) i (resources s)
      ∧ ((waitqueue r = [] ∧ s' = s2)
         ∨ ∃ w, w ∈ waitqueue r
             ∧ status (procs s2 w) = PROCESS_WAIT
             ∧ s' = wake_up i w s2).

(** ** Words for the priority ceiling *)

(** The call [e] is not the release of one resource by a process that
    owns another one as well. *)
Definition lone_release (m : sim) (e : event) : Prop :=
  match e with
  | Release i =>
      ∀ j r, resources (st m) !! j = Some r →
             owner r = current (st m) → j = i
  | _ => True
  end.

(** Along the run [es] from [m], every release is a lone release. *)
Fixpoint disciplined (sch : scheduler) (es : list event) (m : sim) : Prop :=
  match es with
  | [] => True
  | e :: es' =>
      lone_release m e
      ∧ match drive sch e m with
        | Some m1 => disciplined sch es' m1
        | None => True
        end
  end.

(** Every owner is a created process and has the ceiling priority. *)
Definition ceiling (MAX_PRIO : Z) (m : sim) : Prop :=
  ∀ i r p, resources (st m) !! i = Some r → owner r = Some p →
           (p < nr_forked m)%nat ∧ prio (procs (st m) p) = MAX_PRIO.

(** Along the run [es] from [m], no release is a call of the process [c]. *)
Fixpoint releases_nothing (c : pid) (sch : scheduler) (es : list event)
    (m : sim) : Prop :=
  match es with
  | [] => True
  | e :: es' =>
      match e with
      | Release _ => current (st m) ≠ Some c
      | _ => True
      end
      ∧ match drive sch e m with
        | Some m1 => releases_nothing c sch es' m1
        | None => True
        end
  end.

(** ** Concrete runs and states *)

(** A run that leaves P1 (priority 11) and then P2 (priority 21) waiting,
    in this order, for resource 0 held by the running P0. *)
Definition pa_two_waiters : list event :=
  [Fork 9 0; Schedule; Acquire 0%nat; Run;
   Fork 9 10; Schedule; Acquire 0%nat; Schedule; Run;
   Fork 9 20; Schedule; Acquire 0%nat; Schedule; Run].

(** P0 runs and P1, P2 are ready; P0 has run one tick of its five. *)
Definition one_running_two_ready : state :=
  State (λ p, match p with
              | O => Process PROCESS_RUNNING 1 5 7 0
              | S O => Process PROCESS_READY 0 4 3 3
              | _ => Process PROCESS_READY 0 6 9 9
              end)
        (Some 0%nat) [1; 2]%nat [Resource None []].

(** P0 runs and owns resource 0, for which P1 and then P2 wait; P2 has
    the larger priority. *)
Definition owner_and_two_waiters : state :=
  State (λ p, match p with
              | O => Process PROCESS_RUNNING 1 5 8 2
              | S O => Process PROCESS_WAIT 0 4 3 3
              | _ => Process PROCESS_WAIT 0 6 9 9
              end)
        (Some 0%nat) [] [Resource (Some 0%nat) [1; 2]%nat].

(** A run with round-robin in which P0 takes resource 0 and P1 blocks on
    it. *)
Definition rr_block_run : list event :=
  [Fork 3 0; Fork 3 0; Schedule; Acquire 0%nat; Run; Schedule;
   Acquire 0%nat; Schedule; Run; Release 0%nat; Schedule].

(** A run under PIP: P0 (priority 5) holds resource 1, P1 (priority 10)
    holds resource 0 and blocks on resource 1, P0 blocks on resource 0,
    and P2 (priority 1) is then the running process. *)
Definition pip_lower_run : list event :=
  [Fork 9 5; Schedule; Acquire 1%nat; Run;
   Fork 9 10; Schedule; Acquire 0%nat; Acquire 1%nat;
   Schedule; Acquire 0%nat;
   Fork 9 1; Schedule].

(** A run under PCP in which P0 takes resources 0 and 1 and releases
    resource 0 only. *)
Definition pcp_nested_run : list event :=
  [Fork 5 0; Schedule; Acquire 0%nat; Acquire 1%nat; Run; Release 0%nat].

(** A run under PCP in which P0 takes resource 0 and releases it, and P1
    then takes it. *)
Definition pcp_single_run : list event :=
  [Fork 5 0; Schedule; Acquire 0%nat; Run; Release 0%nat;
   Fork 5 3; Schedule; Acquire 0%nat; Run].

(** ** List lemmas *)

Lemma list_del_init_middle p l1 l2 :
  p ∉ l1 → list_del_init p (l1 ++ p :: l2) = l1 ++ l2.
Proof.
  induction l1 as [|x l1 IH]; simpl; intros Hn.
  - by destruct (decide (p = p)).
  - apply not_elem_of_cons in Hn as [Hx Hq].
    destruct (decide (x = p)); [congruence|]. by rewrite IH.
Qed.

Lemma list_del_init_perm p q : p ∈ q → q ≡ₚ p :: list_del_init p q.
Proof.
  induction q as [|x q IH]; simpl; intros Hin.
  - by apply elem_of_nil in Hin.
  - destruct (decide (x = p)) as [->|Hne]; [done|].
    apply elem_of_cons in Hin as [->|Hin]; [done|].
    rewrite (IH Hin) at 1. apply Permutation_swap.
Qed.

Lemma first_max_elem key q n : first_max key q n → n ∈ q.
Proof.
  intros (l1 & l2 & -> & _). apply elem_of_app. right. apply elem_of_cons.
  by left.
Qed.

Lemma first_max_del key q n :
  first_max key q n →
  ∃ l1 l2, q = l1 ++ n :: l2 ∧ list_del_init n q = l1 ++ l2
    ∧ (∀ x, x ∈ l1 → key x < key n)
    ∧ (∀ x, x ∈ l2 → key x ≤ key n).
Proof.
  intros (l1 & l2 & -> & H1 & H2). exists l1, l2.
  split_and!; try done. apply list_del_init_middle.
  intros Hin. specialize (H1 _ Hin). lia.
Qed.

(** The loop [if (key next < key cur) next = cur;] keeps in [next] the
    first largest entry of what it has walked through. *)
Lemma scan_max_step key body pre acc q :
  (∀ next cur,
     body next cur = if bool_decide (key next < key cur) then cur else next) →
  first_max key pre acc →
  first_max key (pre ++ q) (list_for_each_entry_safe body q acc).
Proof.
  intros Hbody. revert pre acc.
  induction q as [|x q IH]; intros pre acc Hacc; simpl.
  - by rewrite app_nil_r.
  - replace (pre ++ x :: q) with ((pre ++ [x]) ++ q)
      by (by rewrite <- app_assoc).
    apply IH. rewrite Hbody.
    destruct Hacc as (l1 & l2 & -> & H1 & H2).
    case_bool_decide as Hlt.
    + exists (l1 ++ acc :: l2), []. split_and!.
      * done.
      * intros y Hy. apply elem_of_app in Hy as [Hy|Hy].
        { specialize (H1 y Hy). lia. }
        apply elem_of_cons in Hy as [->|Hy]; [done|].
        specialize (H2 y Hy). lia.
      * intros y Hy. by apply elem_of_nil in Hy.
    + exists l1, (l2 ++ [x]). split_and!.
      * by rewrite <- app_assoc.
      * done.
      * intros y Hy. apply elem_of_app in Hy as [Hy|Hy]; [by apply H2|].
        apply list_elem_of_singleton in Hy as ->. lia.
Qed.

Lemma scan_max key body first rest :
  (∀ next cur,
     body next cur = if bool_decide (key next < key cur) then cur else next) →
  first_max key (first :: rest)
    (list_for_each_entry_safe body (first :: rest) first).
Proof.
  intros Hbody. unfold list_for_each_entry_safe. simpl.
  rewrite Hbody. rewrite bool_decide_eq_false_2 by lia.
  apply (scan_max_step key body [first] first rest Hbody).
  exists [], []. split_and!; [done|..]; intros y Hy;
    by apply elem_of_nil in Hy.
Qed.

(** ** Basic facts *)

Lemma with_readyqueue_id s : with_readyqueue (readyqueue s) s = s.
Proof. by destruct s. Qed.

Lemma continues_Some s c :
  continues s = Some c ↔
  current s = Some c ∧ status (procs s c) ≠ PROCESS_WAIT ∧ unfinished s c.
Proof.
  unfold continues. destruct (current s) as [c'|]; simpl; [|naive_solver].
  rewrite !option_guard_decide. repeat case_decide; naive_solver.
Qed.

Lemma continues_None s :
  continues s = None ↔
  current s = None
  ∨ ∃ c, current s = Some c
      ∧ (status (procs s c) = PROCESS_WAIT ∨ ¬ unfinished s c).
Proof.
  unfold continues. destruct (current s) as [c'|]; simpl; [|naive_solver].
  rewrite !option_guard_decide.
  destruct (decide (status (procs s c') = PROCESS_WAIT)) as [Hw|Hw].
  - rewrite decide_False by (intros ?; done). naive_solver.
  - rewrite decide_True by done. case_decide; naive_solver.
Qed.

(** The selection of a policy with a minimum scan, whatever the key. *)
Lemma pick_min_spec key body s :
  (∀ next cur,
     body next cur = if bool_decide (key next > key cur) then cur else next) →
  picked_min key (readyqueue s) s
    (match list_first_entry (readyqueue s) with
     | None => (None, s)
     | Some first =>
         let next := list_for_each_entry_safe body (readyqueue s) first in
         (Some next, with_readyqueue (list_del_init next (readyqueue s)) s)
     end).
Proof.
  intros Hbody. destruct (readyqueue s) as [|first rest] eqn:Hq; simpl.
  - left. split; [done|]. by rewrite <- Hq, with_readyqueue_id.
  - right.
    assert (Hmax : first_max (λ p, - key p) (first :: rest)
              (list_for_each_entry_safe body (first :: rest) first)).
    { apply scan_max. intros next cur. rewrite Hbody.
      apply (f_equal (λ b : bool, if b then cur else next)).
      apply bool_decide_ext. lia. }
    apply first_max_del in Hmax as (l1 & l2 & E & Hdel & H1 & H2).
    unfold list_for_each_entry_safe in *; simpl in *.
    eexists _, l1, l2. split_and!; [exact E| | |by rewrite Hdel].
    + intros x Hx. specialize (H1 x Hx). lia.
    + intros x Hx. specialize (H2 x Hx). lia.
Qed.

Lemma pick_max_spec key body s :
  (∀ next cur,
     body next cur = if bool_decide (key next < key cur) then cur else next) →
  picked_max key (readyqueue s) s
    (match list_first_entry (readyqueue s) with
     | None => (None, s)
     | Some first =>
         let next := list_for_each_entry_safe body (readyqueue s) first in
         (Some next, with_readyqueue (list_del_init next (readyqueue s)) s)
     end).
Proof.
  intros Hbody. destruct (readyqueue s) as [|first rest] eqn:Hq; simpl.
  - left. split; [done|]. by rewrite <- Hq, with_readyqueue_id.
  - right.
    pose proof (scan_max key body first rest Hbody) as Hmax.
    apply first_max_del in Hmax as (l1 & l2 & E & Hdel & H1 & H2).
    unfold list_for_each_entry_safe in *; simpl in *.
    eexists _, l1, l2. split_and!; [exact E|done|done|by rewrite Hdel].
Qed.

Lemma sjf_pick_next_spec s :
  picked_min (λ p, lifespan (procs s p)) (readyqueue s) s (sjf_pick_next s).
Proof. by apply pick_min_spec. Qed.

Lemma srtf_pick_next_spec s :
  picked_min (λ p, lifespan (procs s p) - age (procs s p))
    (readyqueue s) s (srtf_pick_next s).
Proof. by apply pick_min_spec. Qed.

Lemma prio_pick_next_spec s :
  picked_max (λ p, prio (procs s p)) (readyqueue s) s (prio_pick_next s).
Proof. by apply pick_max_spec. Qed.

Lemma rr_pick_next_spec s : picked_head (readyqueue s) s (rr_pick_next s).
Proof.
  unfold rr_pick_next, picked_head.
  destruct (readyqueue s) as [|n q] eqn:Hq; simpl.
  - by rewrite <- Hq, with_readyqueue_id.
  - by destruct (decide (n = n)).
Qed.

Lemma schedule_requeue_shape (pick : state → option pid * state) s :
  match current s with
  | None => pick s
  | Some c =>
      if bool_decide (status (procs s c) = PROCESS_WAIT) then pick s
      else if bool_decide (unfinished s c)
      then pick (with_readyqueue (list_add_tail c (readyqueue s)) s)
      else pick s
  end = pick (with_readyqueue (requeued s) s).
Proof.
  unfold requeued, continues.
  destruct (current s) as [c|]; simpl; [|by rewrite with_readyqueue_id].
  rewrite !option_guard_decide.
  case_bool_decide as Hw.
  - rewrite decide_False by (intros ?; done). by rewrite with_readyqueue_id.
  - rewrite decide_True by done.
    case_bool_decide; [by rewrite decide_True|rewrite decide_False by done].
    by rewrite with_readyqueue_id.
Qed.

Lemma schedule_keep_shape (pick : state → option pid * state) s :
  match current s with
  | None => pick s
  | Some c =>
      if bool_decide (status (procs s c) = PROCESS_WAIT) then pick s
      else if bool_decide (unfinished s c) then (Some c, s)
      else pick s
  end = match continues s with Some c => (Some c, s) | None => pick s end.
Proof.
  unfold continues. destruct (current s) as [c|]; simpl; [|done].
  rewrite !option_guard_decide.
  case_bool_decide as Hw.
  - by rewrite decide_False by (intros ?; done).
  - rewrite decide_True by done.
    case_bool_decide; [by rewrite decide_True|by rewrite decide_False].
Qed.

(** ** SJF (C9) *)

(** C9: SJF does not preempt: a current process that did not block and has
    [age < lifespan] is returned again and nothing changes.  Otherwise the
    answer is the ready process with the smallest lifespan, the first one
    on equal lifespans, taken out of the queue.  With ready lifespans
    5, 3, 8 the process of lifespan 3 runs first, for its three ticks,
    then the one of lifespan 5, then the one of lifespan 8. *)
Theorem sjf_schedule_non_preemptive_shortest_first (s : state) :
  (∀ c, current s = Some c → status (procs s c) ≠ PROCESS_WAIT →
        unfinished s c → sjf_schedule s = (Some c, s))
  ∧ (continues s = None →
     picked_min (λ p, lifespan (procs s p)) (readyqueue s) s
       (sjf_schedule s))
  ∧ fst <$> ticks sjf_scheduler 17
              (fork 8 0 (fork 3 0 (fork 5 0 (boot 0))))
    = Some ([Some 1; Some 1; Some 1;
             Some 0; Some 0; Some 0; Some 0; Some 0;
             Some 2; Some 2; Some 2; Some 2; Some 2; Some 2; Some 2; Some 2;
             None]%nat).
Proof.
  split_and!.
  - intros c Hc Hw Hu. unfold sjf_schedule.
    rewrite (schedule_keep_shape sjf_pick_next).
    by rewrite (proj2 (continues_Some s c)).
  - intros Hnone. unfold sjf_schedule.
    rewrite (schedule_keep_shape sjf_pick_next), Hnone.
    apply sjf_pick_next_spec.
  - vm_compute. reflexivity.
Qed.

(** ** SRTF (C6) *)

(** C6: SRTF first chains a current process that did not block and has
    [age < lifespan] at the tail of the ready queue, then answers with the
    process of the whole queue with the smallest [lifespan - age], the
    first one on equal values, and takes it out of the queue.  So the
    process that just ran is not chosen when a process that was already
    queued has as little time left. *)
Theorem srtf_schedule_requeue_least_remaining (s : state) :
  picked_min (λ p, lifespan (procs s p) - age (procs s p))
    (requeued s) s (srtf_schedule s)
  ∧ (∀ c p, continues s = Some c → p ∈ readyqueue s →
       lifespan (procs s p) - age (procs s p)
       ≤ lifespan (procs s c) - age (procs s c) →
       ∃ n l1 l2, readyqueue s = l1 ++ n :: l2
         ∧ srtf_schedule s = (Some n, with_readyqueue (l1 ++ l2 ++ [c]) s)).
Proof.
  assert (Hpick : picked_min (λ p, lifespan (procs s p) - age (procs s p))
            (requeued s) s (srtf_schedule s)).
  { unfold srtf_schedule. rewrite (schedule_requeue_shape srtf_pick_next).
    apply (srtf_pick_next_spec (with_readyqueue (requeued s) s)). }
  split; [done|].
  intros c p Hc Hp Hle. unfold requeued in Hpick. rewrite Hc in Hpick.
  destruct Hpick as [[Hnil _]|(n & l1 & l2 & E & H1 & H2 & ->)].
  { by destruct (readyqueue s). }
  destruct l2 as [|y l2 _] using rev_ind.
  - simpl in E. apply app_inj_tail in E as [E1 E2]. subst c.
    rewrite E1 in Hp. specialize (H1 p Hp). lia.
  - rewrite app_comm_cons, app_assoc in E.
    apply app_inj_tail in E as [E ->].
    by exists n, l1, l2.
Qed.

(** ** Round-robin (C8) *)

(** C8: round-robin chains a current process that did not block and has
    [age < lifespan] at the tail of the ready queue and answers with the
    head of the queue, whatever the remaining times.  Three processes of
    lifespan 3, ready together and never blocking, run one tick each in
    the order P0 P1 P2 P0 P1 P2 P0 P1 P2; then the processor idles. *)
Theorem rr_schedule_requeue_head (s : state) :
  picked_head (requeued s) s (rr_schedule s)
  ∧ fst <$> ticks rr_scheduler 10
              (fork 3 0 (fork 3 0 (fork 3 0 (boot 0))))
    = Some ([Some 0; Some 1; Some 2; Some 0; Some 1; Some 2;
             Some 0; Some 1; Some 2; None]%nat).
Proof.
  split.
  - unfold rr_schedule. rewrite (schedule_requeue_shape rr_pick_next).
    apply (rr_pick_next_spec (with_readyqueue (requeued s) s)).
  - vm_compute. reflexivity.
Qed.

(** ** Reading a state after an assignment *)

Lemma procs_update_eq p f s : procs (update p f s) p = f (procs s p).
Proof. unfold update; simpl. apply fn_lookup_alter. Qed.

Lemma procs_update_ne p q f s :
  p ≠ q → procs (update p f s) q = procs s q.
Proof. intros. unfold update; simpl. by apply fn_lookup_alter_ne. Qed.

Lemma resources_update_eq i f s r :
  resources s !! i = Some r →
  resources (update_resource i f s) !! i = Some (f r).
Proof.
  intros Hr. unfold update_resource; simpl.
  by rewrite list_lookup_alter_eq, Hr.
Qed.

Lemma resources_update_ne i j f s :
  i ≠ j → resources (update_resource i f s) !! j = resources s !! j.
Proof. intros. unfold update_resource; simpl. by apply list_lookup_alter_ne. Qed.

Lemma resources_wake_up_eq i w s r :
  resources s !! i = Some r →
  resources (wake_up i w s) !! i
  = Some (set_waitqueue (list_del_init w (waitqueue r)) r).
Proof. intros Hr. unfold wake_up; simpl. by rewrite list_lookup_alter_eq, Hr. Qed.

Lemma resources_wake_up_ne i j w s :
  i ≠ j → resources (wake_up i w s) !! j = resources s !! j.
Proof. intros. unfold wake_up; simpl. by apply list_lookup_alter_ne. Qed.

(** ** FCFS protocol (C7) *)

(** C7: under FCFS, [acquire] on a free resource makes the requester the
    owner and answers true; on an owned resource it marks the requester
    WAITING, chains it at the tail of the wait queue of that resource and
    answers false.  [release] by the owner clears the ownership and, when
    somebody waits, moves the head of the wait queue, and nobody else, to
    the tail of the ready queue with status READY: the others keep their
    places behind it, and the head is no longer in the wait queue. *)
Theorem fcfs_acquire_release_fifo (resource_id : nat) (s : state)
    (r : resource) :
  resources s !! resource_id = Some r →
  (owner r = None →
   ∃ s', fcfs_acquire resource_id s = Some (true, s')
     ∧ resources s' !! resource_id = Some (Resource (current s) (waitqueue r))
     ∧ (∀ i, i ≠ resource_id → resources s' !! i = resources s !! i)
     ∧ procs s' = procs s ∧ readyqueue s' = readyqueue s
     ∧ current s' = current s)
  ∧ (∀ c, is_Some (owner r) → current s = Some c →
     ∃ s', fcfs_acquire resource_id s = Some (false, s')
       ∧ procs s' c = set_status PROCESS_WAIT (procs s c)
       ∧ (∀ p, p ≠ c → procs s' p = procs s p)
       ∧ resources s' !! resource_id
         = Some (Resource (owner r) (waitqueue r ++ [c]))
       ∧ (∀ i, i ≠ resource_id → resources s' !! i = resources s !! i)
       ∧ readyqueue s' = readyqueue s ∧ current s' = current s)
  ∧ (owner r = current s → waitqueue r = [] →
     ∃ s', fcfs_release resource_id s = Some s'
       ∧ resources s' !! resource_id = Some (Resource None [])
       ∧ (∀ i, i ≠ resource_id → resources s' !! i = resources s !! i)
       ∧ procs s' = procs s ∧ readyqueue s' = readyqueue s
       ∧ current s' = current s)
  ∧ (∀ w rest, owner r = current s → waitqueue r = w :: rest →
     status (procs s w) = PROCESS_WAIT →
     ∃ s', fcfs_release resource_id s = Some s'
       ∧ resources s' !! resource_id = Some (Resource None rest)
       ∧ (∀ i, i ≠ resource_id → resources s' !! i = resources s !! i)
       ∧ procs s' w = set_status PROCESS_READY (procs s w)
       ∧ (∀ p, p ≠ w → procs s' p = procs s p)
       ∧ readyqueue s' = readyqueue s ++ [w]
       ∧ current s' = current s).
Proof.
  intros Hr. split_and!.
  - intros Ho. unfold fcfs_acquire. rewrite Hr; simpl. rewrite Ho.
    eexists. split; [done|]. split_and!; try done.
    + by rewrite (resources_update_eq _ _ _ r).
    + intros i Hi. by apply resources_update_ne.
  - intros c [o Ho] Hc. unfold fcfs_acquire. rewrite Hr; simpl.
    rewrite Ho, Hc; simpl.
    eexists. split; [done|]. split_and!; try done.
    + apply procs_update_eq.
    + intros p Hp. by apply (procs_update_ne c p).
    + rewrite (resources_update_eq _ _ _ r) by done. by rewrite <- Ho.
    + intros i Hi. by rewrite resources_update_ne.
  - intros Ho Hq. unfold fcfs_release. rewrite Hr; simpl.
    rewrite option_guard_True by done. rewrite Hq; simpl.
    eexists. split; [done|]. split_and!; try done.
    + rewrite (resources_update_eq _ _ _ r) by done.
      unfold set_owner. by rewrite Hq.
    + intros i Hi. by apply resources_update_ne.
  - intros w rest Ho Hq Hw. unfold fcfs_release. rewrite Hr; simpl.
    rewrite option_guard_True by done. rewrite Hq; simpl.
    rewrite option_guard_True by done.
    eexists. split; [done|]. split_and!; try done.
    + rewrite (resources_wake_up_eq _ _ _ (set_owner None r))
        by by apply resources_update_eq.
      simpl. rewrite Hq; simpl. by destruct (decide (w = w)).
    + intros i Hi. rewrite resources_wake_up_ne by done.
      by apply resources_update_ne.
    + unfold wake_up; simpl. apply fn_lookup_alter.
    + intros p Hp. unfold wake_up; simpl. by apply fn_lookup_alter_ne.
Qed.

(** ** Priority inheritance protocol (C3) *)

Lemma pip_scan_spec (s : state) (first : pid) (rest : list pid) :
  first_max (λ p, prio (procs s p)) (first :: rest)
    (list_for_each_entry_safe
       (λ waiter cur,
          if bool_decide (prio (procs s waiter) < prio (procs s cur))
          then cur else waiter)
       (first :: rest) first).
Proof. by apply scan_max. Qed.

(** C3, as the code has it: under PIP, [acquire] on a free resource makes
    the requester the owner, answers true and changes no process;
    [acquire] on an owned resource gives the owner the priority of the
    requester, whether that is more or less than it had, changes the
    priority of nobody else, marks the requester WAITING at the tail of
    the wait queue and answers false; [release] by the owner sets its
    priority to its [prio_orig], clears the ownership and wakes the waiter
    with the largest priority, the first one on equal priorities. *)
Theorem pip_acquire_release_inheritance (resource_id : nat) (s : state)
    (r : resource) :
  resources s !! resource_id = Some r →
  (owner r = None →
   ∃ s', pip_acquire resource_id s = Some (true, s')
     ∧ resources s' !! resource_id = Some (Resource (current s) (waitqueue r))
     ∧ procs s' = procs s ∧ readyqueue s' = readyqueue s
     ∧ current s' = current s)
  ∧ (∀ o c, owner r = Some o → current s = Some c →
     ∃ s', pip_acquire resource_id s = Some (false, s')
       ∧ prio (procs s' o) = prio (procs s c)
       ∧ (∀ p, p ≠ o → prio (procs s' p) = prio (procs s p))
       ∧ status (procs s' c) = PROCESS_WAIT
       ∧ (∀ p, p ≠ c → status (procs s' p) = status (procs s p))
       ∧ (∀ p, prio_orig (procs s' p) = prio_orig (procs s p)
               ∧ age (procs s' p) = age (procs s p)
               ∧ lifespan (procs s' p) = lifespan (procs s p))
       ∧ resources s' !! resource_id
         = Some (Resource (Some o) (waitqueue r ++ [c]))
       ∧ readyqueue s' = readyqueue s ∧ current s' = current s)
  ∧ (∀ c, owner r = Some c → current s = Some c →
     (∀ p, p ∈ waitqueue r → status (procs s p) = PROCESS_WAIT) →
     ∃ s', pip_release resource_id s = Some s'
       ∧ prio (procs s' c) = prio_orig (procs s c)
       ∧ (∀ p, p ≠ c → prio (procs s' p) = prio (procs s p))
       ∧ current s' = current s
       ∧ ((waitqueue r = []
           ∧ resources s' !! resource_id = Some (Resource None [])
           ∧ readyqueue s' = readyqueue s
           ∧ ∀ p, status (procs s' p) = status (procs s p))
          ∨ ∃ w l1 l2, waitqueue r = l1 ++ w :: l2
              ∧ (∀ x, x ∈ l1 → prio (procs s' x) < prio (procs s' w))
              ∧ (∀ x, x ∈ l2 → prio (procs s' x) ≤ prio (procs s' w))
              ∧ resources s' !! resource_id = Some (Resource None (l1 ++ l2))
              ∧ readyqueue s' = readyqueue s ++ [w]
              ∧ status (procs s' w) = PROCESS_READY
              ∧ ∀ p, p ≠ w → status (procs s' p) = status (procs s p))).
Proof.
  intros Hr. split_and!.
  - intros Ho. unfold pip_acquire. rewrite Hr; simpl. rewrite Ho.
    eexists. split; [done|]. split_and!; try done.
    by rewrite (resources_update_eq _ _ _ r).
  - intros o c Ho Hc. unfold pip_acquire. rewrite Hr; simpl.
    rewrite Ho, Hc; simpl.
    eexists. split; [done|]. simpl.
    assert (Hprocs : ∀ p,
      alter (set_status PROCESS_WAIT) c
        (alter (set_prio (prio (procs s c))) o (procs s)) p
      = (if decide (c = p) then set_status PROCESS_WAIT else id)
          ((if decide (o = p) then set_prio (prio (procs s c)) else id)
             (procs s p))).
    { intros p. destruct (decide (c = p)) as [->|Hcp].
      - rewrite fn_lookup_alter.
        destruct (decide (o = p)) as [->|Hop];
          [by rewrite fn_lookup_alter|by rewrite fn_lookup_alter_ne].
      - rewrite fn_lookup_alter_ne by done.
        destruct (decide (o = p)) as [->|Hop];
          [by rewrite fn_lookup_alter|by rewrite fn_lookup_alter_ne]. }
    split_and!; try done.
    + rewrite Hprocs. by repeat case_decide; simplify_eq.
    + intros p Hp. rewrite Hprocs. by repeat case_decide; simplify_eq.
    + rewrite Hprocs. by repeat case_decide; simplify_eq.
    + intros p Hp. rewrite Hprocs. by repeat case_decide; simplify_eq.
    + intros p. rewrite Hprocs. by repeat case_decide; simplify_eq.
    + rewrite list_lookup_alter_eq, Hr; simpl.
      unfold set_waitqueue, list_add_tail. by rewrite Ho.
  - intros c Ho Hc Hwait. unfold pip_release. rewrite Hr; simpl.
    rewrite option_guard_True by congruence. rewrite Ho, Hc; simpl.
    set (s1 := update c (set_prio (prio_orig (procs s c))) s).
    set (s2 := update_resource resource_id (set_owner None) s1).
    assert (Hst : ∀ p, status (procs s2 p) = status (procs s p)).
    { intros p. simpl. destruct (decide (c = p)) as [->|Hcp];
        [by rewrite fn_lookup_alter|by rewrite fn_lookup_alter_ne]. }
    assert (Hr2 : resources s2 !! resource_id = Some (set_owner None r)).
    { by apply resources_update_eq. }
    destruct (waitqueue r) as [|first rest] eqn:Hq.
    + simpl. eexists. split; [done|]. split_and!; try done.
      * simpl. by rewrite fn_lookup_alter.
      * intros p Hp. simpl. by rewrite fn_lookup_alter_ne.
      * left. split_and!; try done.
        rewrite Hr2. unfold set_owner. by rewrite Hq.
    + change (list_first_entry (first :: rest)) with (Some first).
      cbv iota beta zeta.
      pose proof (pip_scan_spec s2 first rest) as Hmax.
      set (w := list_for_each_entry_safe _ (first :: rest) first) in *.
      rewrite option_guard_True
        by (etrans; [apply (Hst w)|apply Hwait; by eapply first_max_elem]).
      eexists. split; [done|].
      apply first_max_del in Hmax as (l1 & l2 & E & Hdel & H1 & H2).
      assert (Hp' : ∀ p, prio (procs (wake_up resource_id w s2) p)
                        = prio (procs s2 p)).
      { intros p. unfold wake_up; simpl.
        destruct (decide (w = p)) as [->|Hwp];
          [by rewrite fn_lookup_alter|by rewrite fn_lookup_alter_ne]. }
      split_and!; try done.
      * rewrite Hp'. simpl. by rewrite fn_lookup_alter.
      * intros p Hp. rewrite Hp'. simpl. by rewrite fn_lookup_alter_ne.
      * right. exists w, l1, l2. split_and!; try done.
        -- intros x Hx. rewrite !Hp'. by apply H1.
        -- intros x Hx. rewrite !Hp'. by apply H2.
        -- rewrite (resources_wake_up_eq _ _ _ (set_owner None r)) by done.
           simpl. rewrite Hq. by rewrite Hdel.
        -- unfold wake_up; simpl. by rewrite fn_lookup_alter.
        -- intros p Hp. unfold wake_up; simpl.
           rewrite fn_lookup_alter_ne by done. apply Hst.
Qed.

(** ** Priority with aging (C5, C10) *)

Lemma first_max_snoc key pre acc x :
  first_max key pre acc →
  first_max key (pre ++ [x]) (if bool_decide (key acc < key x) then x else acc).
Proof.
  apply (scan_max_step key
           (λ next cur, if bool_decide (key next < key cur) then cur else next)
           pre acc [x]).
  done.
Qed.

(** The loop of [pa_schedule] from the middle of the queue: [pre] has been
    walked through, [q] is still to come. *)
Lemma pa_scan_step (s0 : state) (q pre : list pid) (s1 : state) (next : pid) :
  NoDup (pre ++ q) →
  (∀ p, procs s1 p
        = if decide (p ∈ pre) then aged (procs s0 p) else procs s0 p) →
  first_max (λ p, prio (procs s0 p)) pre next →
  let acc := list_for_each_entry_safe pa_scan_body q (s1, next) in
  (∀ p, procs acc.1 p
        = if decide (p ∈ pre ++ q) then aged (procs s0 p) else procs s0 p)
  ∧ first_max (λ p, prio (procs s0 p)) (pre ++ q) acc.2
  ∧ readyqueue acc.1 = readyqueue s1
  ∧ current acc.1 = current s1
  ∧ resources acc.1 = resources s1.
Proof.
  revert pre s1 next. induction q as [|x q IH]; intros pre s1 next Hnd Hs1 Hmax.
  - simpl. rewrite app_nil_r. by split_and!.
  - replace (pre ++ x :: q) with ((pre ++ [x]) ++ q) in *
      by (by rewrite <- app_assoc).
    assert (Hx : x ∉ pre).
    { apply NoDup_app in Hnd as [Hnd _]. apply NoDup_app in Hnd as (_ & Hd & _).
      intros Hin. apply (Hd x Hin). by apply list_elem_of_singleton. }
    assert (Hn : next ∈ pre) by by eapply first_max_elem.
    unfold list_for_each_entry_safe. simpl foldl.
    set (s2 := update x (λ p, set_prio (prio p + 1) p) s1).
    assert (Hs2 : ∀ p, procs s2 p
              = if decide (p ∈ pre ++ [x]) then aged (procs s0 p)
                else procs s0 p).
    { intros p. destruct (decide (x = p)) as [->|Hxp].
      - unfold s2. rewrite procs_update_eq, Hs1.
        rewrite decide_False by done.
        rewrite decide_True; [done|].
        apply elem_of_app. right. by apply list_elem_of_singleton.
      - unfold s2. rewrite procs_update_ne by done. rewrite Hs1.
        destruct (decide (p ∈ pre)) as [Hp|Hp].
        + rewrite decide_True; [done|]. apply elem_of_app. by left.
        + rewrite decide_False; [done|]. intros Hin.
          apply elem_of_app in Hin as [?|Hin]; [done|].
          apply list_elem_of_singleton in Hin. congruence. }
    assert (Hbody : pa_scan_body (s1, next) x
              = (s2, if bool_decide (prio (procs s0 next) < prio (procs s0 x))
                     then x else next)).
    { unfold pa_scan_body. cbn [fst snd]. fold s2. f_equal.
      apply (f_equal (λ b : bool, if b then x else next)).
      apply bool_decide_ext. rewrite !Hs2.
      rewrite decide_True by (apply elem_of_app; by left).
      rewrite decide_True
        by (apply elem_of_app; right; by apply list_elem_of_singleton).
      simpl. lia. }
    rewrite Hbody.
    apply (IH (pre ++ [x]) s2); [done|done|].
    by apply (first_max_snoc (λ p, prio (procs s0 p))).
Qed.

Lemma pa_pick_next_spec (s : state) :
  NoDup (readyqueue s) →
  (readyqueue s = [] ∧ pa_pick_next s = (None, s))
  ∨ ∃ n l1 l2 s', pa_pick_next s = (Some n, s')
      ∧ readyqueue s = l1 ++ n :: l2
      ∧ (∀ x, x ∈ l1 → prio (procs s x) < prio (procs s n))
      ∧ (∀ x, x ∈ l2 → prio (procs s x) ≤ prio (procs s n))
      ∧ readyqueue s' = l1 ++ l2
      ∧ (∀ p, procs s' p
              = if decide (p ∈ readyqueue s) then aged (procs s p)
                else procs s p)
      ∧ current s' = current s
      ∧ resources s' = resources s.
Proof.
  intros Hnd. unfold pa_pick_next.
  destruct (readyqueue s) as [|first rest] eqn:Hq; [by left|right].
  change (list_first_entry (first :: rest)) with (Some first).
  cbv iota beta zeta.
  unfold list_for_each_entry_safe. simpl foldl.
  set (s1 := update first (λ p, set_prio (prio p + 1) p) s).
  assert (Hfirst : pa_scan_body (s, first) first = (s1, first)).
  { unfold pa_scan_body. cbn [fst snd]. fold s1.
    by rewrite bool_decide_eq_false_2 by lia. }
  rewrite Hfirst.
  destruct (pa_scan_step s rest [first] s1 first) as (Hp & Hmax & Hr & Hc & Hrs).
  - done.
  - intros p. destruct (decide (first = p)) as [->|Hne].
    + unfold s1. rewrite procs_update_eq.
      rewrite decide_True; [done|]. by apply list_elem_of_singleton.
    + unfold s1. rewrite procs_update_ne by done.
      rewrite decide_False; [done|]. intros Hin.
      apply list_elem_of_singleton in Hin. congruence.
  - exists [], []. split_and!; [done|..]; intros y Hy;
      by apply elem_of_nil in Hy.
  - unfold list_for_each_entry_safe in *.
    set (acc := foldl pa_scan_body (s1, first) rest) in *.
    apply first_max_del in Hmax as (l1 & l2 & E & Hdel & H1 & H2).
    exists acc.2, l1, l2. eexists. split; [done|].
    split_and!; try done.
    rewrite Hr. simpl. rewrite Hq. exact Hdel.
Qed.

Lemma pa_schedule_shape s :
  pa_schedule s
  = match continues s with
    | Some c => pa_pick_next (pa_requeue c s)
    | None => pa_pick_next s
    end.
Proof.
  unfold pa_schedule, continues. destruct (current s) as [c|]; simpl; [|done].
  rewrite !option_guard_decide.
  case_bool_decide as Hw.
  - by rewrite decide_False by (intros ?; done).
  - rewrite decide_True by done.
    case_bool_decide; [by rewrite decide_True|by rewrite decide_False].
Qed.

Lemma pa_schedule_spec (s : state) :
  NoDup (requeued s) →
  (requeued s = [] ∧ pa_schedule s = (None, s))
  ∨ ∃ n l1 l2 s', pa_schedule s = (Some n, s')
      ∧ requeued s = l1 ++ n :: l2
      ∧ (∀ x, x ∈ l1 → entering s x < entering s n)
      ∧ (∀ x, x ∈ l2 → entering s x ≤ entering s n)
      ∧ readyqueue s' = l1 ++ l2
      ∧ (∀ p, procs s' p
              = if decide (p ∈ requeued s)
                then set_prio (entering s p + 1) (procs s p)
                else procs s p)
      ∧ current s' = current s
      ∧ resources s' = resources s.
Proof.
  intros Hnd. rewrite pa_schedule_shape. unfold requeued, entering in *.
  destruct (continues s) as [c|] eqn:Hc.
  - right.
    assert (Hprio : ∀ p, prio (procs (pa_requeue c s) p)
              = if decide (Some c = Some p) then prio_orig (procs s p)
                else prio (procs s p)).
    { intros p. unfold pa_requeue. destruct (decide (c = p)) as [->|Hne].
      - rewrite procs_update_eq. by rewrite decide_True.
      - rewrite procs_update_ne by done. rewrite decide_False; [done|].
        congruence. }
    destruct (pa_pick_next_spec (pa_requeue c s) Hnd)
      as [[Hnil _]|(n & l1 & l2 & s' & Hs' & E & H1 & H2 & Hq & Hp & Hcu & Hrs)].
    { unfold pa_requeue, list_add_tail in Hnil. simpl in Hnil.
      by destruct (readyqueue s). }
    exists n, l1, l2, s'. split_and!; try done.
    + intros x Hx. rewrite <- !Hprio. by apply H1.
    + intros x Hx. rewrite <- !Hprio. by apply H2.
    + intros p. rewrite Hp. change (readyqueue (pa_requeue c s))
        with (readyqueue s ++ [c]).
      destruct (decide (p ∈ readyqueue s ++ [c])) as [Hin|Hin].
      * unfold aged. rewrite Hprio. unfold pa_requeue.
        destruct (decide (c = p)) as [->|Hne].
        -- by rewrite procs_update_eq.
        -- by rewrite procs_update_ne.
      * unfold pa_requeue. rewrite procs_update_ne; [done|].
        intros ->. apply Hin. apply elem_of_app. right.
        by apply list_elem_of_singleton.
  - destruct (pa_pick_next_spec s Hnd)
      as [?|(n & l1 & l2 & s' & Hs' & E & H1 & H2 & Hq & Hp & Hcu & Hrs)];
      [by left|right].
    exists n, l1, l2, s'. split_and!; try done.
Qed.

(** C5: in [pa_schedule], a current process that did not block and has
    [age < lifespan] is at the tail of the ready queue, with its priority
    reset to [prio_orig], when the selection scan starts; the scan adds
    exactly 1 to the priority of every process that was waiting in the
    ready queue, so each of them ends the call with a strictly larger
    priority; and the process chosen is the one that entered the scan
    with the largest priority, the first one on equal priorities.  (What
    the scan does to the process just put back is C10.) *)
Theorem pa_schedule_reset_aging_selection (s : state) :
  NoDup (requeued s) →
  (∀ c, continues s = Some c →
     pa_schedule s = pa_pick_next (pa_requeue c s)
     ∧ prio (procs (pa_requeue c s) c) = prio_orig (procs s c)
     ∧ readyqueue (pa_requeue c s) = readyqueue s ++ [c])
  ∧ (∀ p, p ∈ readyqueue s →
       prio (procs (pa_schedule s).2 p) = prio (procs s p) + 1
       ∧ prio (procs s p) < prio (procs (pa_schedule s).2 p))
  ∧ ((requeued s = [] ∧ pa_schedule s = (None, s))
     ∨ ∃ n l1 l2 s', pa_schedule s = (Some n, s')
         ∧ requeued s = l1 ++ n :: l2
         ∧ (∀ x, x ∈ l1 → entering s x < entering s n)
         ∧ (∀ x, x ∈ l2 → entering s x ≤ entering s n)
         ∧ readyqueue s' = l1 ++ l2).
Proof.
  intros Hnd. split_and!.
  - intros c Hc. rewrite pa_schedule_shape, Hc. split_and!; [done| |done].
    unfold pa_requeue. by rewrite procs_update_eq.
  - intros p Hp.
    assert (Hin : p ∈ requeued s).
    { unfold requeued. destruct (continues s); [|done].
      apply elem_of_app. by left. }
    assert (Hent : entering s p = prio (procs s p)).
    { unfold entering. case_decide as Hc; [|done]. exfalso.
      unfold requeued in Hnd. rewrite Hc in Hnd.
      apply NoDup_app in Hnd as (_ & Hd & _). apply (Hd p Hp).
      by apply list_elem_of_singleton. }
    destruct (pa_schedule_spec s Hnd)
      as [[Hnil _]|(n & l1 & l2 & s' & -> & _ & _ & _ & _ & Hprocs & _)].
    { rewrite Hnil in Hin. by apply elem_of_nil in Hin. }
    simpl. rewrite Hprocs, decide_True by done. simpl. rewrite Hent. lia.
  - destruct (pa_schedule_spec s Hnd)
      as [?|(n & l1 & l2 & s' & ? & ? & ? & ? & ? & _)]; [by left|right].
    by exists n, l1, l2, s'.
Qed.

(** C10: the process that [pa_schedule] has just put back at the tail of
    the ready queue is aged by the scan like the others: it leaves the
    call with priority [prio_orig + 1], and the choice is made on the
    priorities as the scan leaves them, that one included. *)
Theorem pa_schedule_requeued_is_aged (s : state) (c : pid) :
  NoDup (requeued s) →
  continues s = Some c →
  ∃ n l1 l2 s', pa_schedule s = (Some n, s')
    ∧ prio (procs s' c) = prio_orig (procs s c) + 1
    ∧ prio_orig (procs s' c) = prio_orig (procs s c)
    ∧ readyqueue s ++ [c] = l1 ++ n :: l2
    ∧ (∀ x, x ∈ l1 → prio (procs s' x) < prio (procs s' n))
    ∧ (∀ x, x ∈ l2 → prio (procs s' x) ≤ prio (procs s' n))
    ∧ readyqueue s' = l1 ++ l2.
Proof.
  intros Hnd Hc.
  assert (Hreq : requeued s = readyqueue s ++ [c])
    by (unfold requeued; by rewrite Hc).
  destruct (pa_schedule_spec s Hnd)
    as [[Hnil _]|(n & l1 & l2 & s' & Hs' & E & H1 & H2 & Hq & Hprocs & _)].
  { rewrite Hreq in Hnil. by destruct (readyqueue s). }
  assert (Hfinal : ∀ x, x ∈ requeued s →
            prio (procs s' x) = entering s x + 1).
  { intros x Hx. by rewrite Hprocs, decide_True. }
  assert (Hsub : ∀ x, x ∈ l1 ∨ x = n ∨ x ∈ l2 → x ∈ requeued s).
  { intros x Hx. rewrite E. apply elem_of_app.
    destruct Hx as [?|[->|?]]; [by left|right; by left|right; by right]. }
  exists n, l1, l2, s'. split_and!; try done.
  - rewrite Hfinal.
    + unfold entering. by rewrite decide_True.
    + rewrite Hreq. apply elem_of_app. right. by apply list_elem_of_singleton.
  - rewrite Hprocs. by case_decide.
  - by rewrite <- Hreq.
  - intros x Hx. rewrite !Hfinal by (apply Hsub; auto). specialize (H1 x Hx). lia.
  - intros x Hx. rewrite !Hfinal by (apply Hsub; auto). specialize (H2 x Hx). lia.
Qed.

(** ** Release under priority with aging (C2) *)

(** C2, evaluated: the release callback of the priority-with-aging
    scheduler is [fcfs_release].  After the run above the wait queue of
    resource 0 is P1, P2 with priorities 11 and 21, and the release by P0
    moves P1, the head, to the ready queue; P2, which has the largest
    priority, stays in the wait queue. *)
Theorem pa_release_wakes_fifo_head :
  release pa_scheduler = fcfs_release
  ∧ (m ← run pa_scheduler pa_two_waiters (boot 1);
     m' ← drive pa_scheduler (Release 0%nat) m;
     Some (running (st m), resources (st m),
           prio (procs (st m) 1%nat), prio (procs (st m) 2%nat),
           readyqueue (st m'), resources (st m')))
    = Some (Some 0%nat, [Resource (Some 0%nat) [1; 2]%nat], 11, 21,
            [1%nat], [Resource None [2%nat]]).
Proof. split; [done|]. vm_compute. reflexivity. Qed.

(** ** Where the processes are (C1) *)

Lemma quiet_trans s1 s2 s3 : quiet s1 s2 → quiet s2 s3 → quiet s1 s3.
Proof.
  intros (Hc & Hq & Hw & Hl) (Hc' & Hq' & Hw' & Hl').
  split_and!; try congruence.
  intros p. destruct (Hl p) as (? & ? & ?), (Hl' p) as (? & ? & ?).
  split_and!; congruence.
Qed.

Lemma quiet_waiting s s' : quiet s s' → waiting s' = waiting s.
Proof. intros (_ & _ & Hw & _). unfold waiting. by rewrite Hw. Qed.

(** Assignments that move nobody. *)
Lemma quiet_set_owner i o s : quiet s (update_resource i (set_owner o) s).
Proof.
  split_and!; try done. simpl.
  apply list_eq. intros j. rewrite !list_lookup_fmap.
  destruct (decide (i = j)) as [->|Hne].
  - rewrite list_lookup_alter_eq. by destruct (resources s !! j).
  - by rewrite list_lookup_alter_ne.
Qed.

Lemma quiet_set_prio p (f : process → Z) s :
  quiet s (update p (λ r, set_prio (f r) r) s).
Proof.
  split_and!; try done. intros q. destruct (decide (p = q)) as [->|Hne].
  - by rewrite procs_update_eq.
  - by rewrite procs_update_ne.
Qed.

(** The wait queues around the one of resource [i]. *)
Lemma waiting_split (rs : list resource) (i : nat) (r : resource) :
  rs !! i = Some r →
  ∃ A B, concat (waitqueue <$> rs) = A ++ waitqueue r ++ B
    ∧ ∀ f, concat (waitqueue <$> alter f i rs) = A ++ waitqueue (f r) ++ B.
Proof.
  revert i. induction rs as [|r0 rs IH]; intros i Hi; [done|].
  destruct i as [|i]; csimpl in *.
  - injection Hi as ->. by exists [], (concat (waitqueue <$> rs)).
  - destruct (IH i Hi) as (A & B & E & Ef).
    exists (waitqueue r0 ++ A), B. split.
    + by rewrite E, <- app_assoc.
    + intros f. by rewrite Ef, <- app_assoc.
Qed.

Lemma quiet_blocked s s1 c s' : quiet s s1 → blocked s1 c s' → blocked s c s'.
Proof.
  intros Hq (Hc & Hr & Hw & Hst & Hothers & Hlife).
  pose proof (quiet_waiting _ _ Hq) as Hw1.
  destruct Hq as (Hc1 & Hr1 & _ & Hl1).
  split_and!.
  - congruence.
  - congruence.
  - by rewrite Hw, Hw1.
  - done.
  - intros p Hp. rewrite (Hothers p Hp). apply Hl1.
  - intros p. destruct (Hlife p) as [-> ->]. split; apply Hl1.
Qed.

Lemma quiet_woken s s1 w s' : quiet s s1 → woken s1 w s' → woken s w s'.
Proof.
  intros Hq (Hc & Hr & Hw & Hst & Hothers & Hlife).
  pose proof (quiet_waiting _ _ Hq) as Hw1.
  destruct Hq as (Hc1 & Hr1 & _ & Hl1).
  split_and!.
  - congruence.
  - congruence.
  - by rewrite <- Hw1.
  - done.
  - intros p Hp. rewrite (Hothers p Hp). apply Hl1.
  - intros p. destruct (Hlife p) as [-> ->]. split; apply Hl1.
Qed.

(** The two lines [current->status = PROCESS_WAIT; list_add_tail(...)]. *)
Lemma block_blocked (i : nat) (c : pid) (s : state) (r : resource) :
  resources s !! i = Some r →
  blocked s c
    (update_resource i
       (λ r, set_waitqueue (list_add_tail c (waitqueue r)) r)
       (update c (set_status PROCESS_WAIT) s)).
Proof.
  intros Hr. split_and!; try done.
  - unfold waiting; simpl.
    destruct (waiting_split _ _ _ Hr) as (A & B & -> & ->). simpl.
    unfold list_add_tail.
    etrans; [|symmetry; apply (Permutation_middle A (waitqueue r ++ B) c)].
    apply Permutation_app_head. rewrite <- app_assoc. simpl.
    symmetry. apply Permutation_middle.
  - simpl. by rewrite fn_lookup_alter.
  - intros p Hp. simpl. by rewrite fn_lookup_alter_ne.
  - intros p. simpl. destruct (decide (c = p)) as [->|Hne];
      [by rewrite fn_lookup_alter|by rewrite fn_lookup_alter_ne].
Qed.

Lemma wake_up_woken (i : nat) (w : pid) (s : state) (r : resource) :
  resources s !! i = Some r → w ∈ waitqueue r → woken s w (wake_up i w s).
Proof.
  intros Hr Hw. split_and!; try done.
  - unfold waiting, wake_up; simpl.
    destruct (waiting_split _ _ _ Hr) as (A & B & -> & ->). simpl.
    etrans; [|symmetry; apply (Permutation_middle A)].
    apply Permutation_app_head.
    apply (Permutation_app_tail B (list_del_init_perm w (waitqueue r) Hw)).
  - unfold wake_up; simpl. by rewrite fn_lookup_alter.
  - intros p Hp. unfold wake_up; simpl. by rewrite fn_lookup_alter_ne.
  - intros p. unfold wake_up; simpl. destruct (decide (w = p)) as [->|Hne];
      [by rewrite fn_lookup_alter|by rewrite fn_lookup_alter_ne].
Qed.

Lemma fcfs_acquire_ok i s r : fcfs_acquire i s = Some r → acquire_ok s r.
Proof.
  unfold fcfs_acquire. intros H.
  destruct (resources s !! i) as [r0|] eqn:Hr; [|done]. simpl in H.
  destruct (owner r0) as [o|].
  - destruct (current s) as [c|] eqn:Hc; [|done]. simpl in H.
    injection H as <-. exists c. split; [done|]. by eapply block_blocked.
  - injection H as <-. apply quiet_set_owner.
Qed.

Lemma pcp_acquire_ok v i s r : pcp_acquire v i s = Some r → acquire_ok s r.
Proof.
  unfold pcp_acquire. intros H.
  destruct (resources s !! i) as [r0|] eqn:Hr; [|done]. simpl in H.
  destruct (current s) as [c|] eqn:Hc; [|done]. simpl in H.
  destruct (owner r0) as [o|].
  - injection H as <-. exists c. split; [done|]. by eapply block_blocked.
  - injection H as <-. eapply quiet_trans; [|apply quiet_set_owner].
    apply (quiet_set_prio c (λ _, v)).
Qed.

Lemma pip_acquire_ok i s r : pip_acquire i s = Some r → acquire_ok s r.
Proof.
  unfold pip_acquire. intros H.
  destruct (resources s !! i) as [r0|] eqn:Hr; [|done]. simpl in H.
  destruct (owner r0) as [o|].
  - destruct (current s) as [c|] eqn:Hc; [|done]. simpl in H.
    injection H as <-. exists c. split; [done|].
    eapply quiet_blocked;
      [apply (quiet_set_prio o (λ _, prio (procs s c)))|].
    by eapply block_blocked.
  - injection H as <-. apply quiet_set_owner.
Qed.

Lemma release_tail_ok s s2 i r w :
  quiet s s2 → resources s2 !! i = Some r → w ∈ waitqueue r →
  release_ok s (wake_up i w s2).
Proof.
  intros Hq Hr Hw. right. exists w.
  eapply quiet_woken; [done|]. by eapply wake_up_woken.
Qed.

Lemma head_elem (q : list pid) (w : pid) : list_first_entry q = Some w → w ∈ q.
Proof. destruct q; [done|]. intros [= ->]. by left. Qed.

Lemma scan_elem key body (q : list pid) (first : pid) :
  (∀ next cur,
     body next cur = if bool_decide (key next < key cur) then cur else next) →
  list_first_entry q = Some first →
  list_for_each_entry_safe body q first ∈ q.
Proof.
  intros Hbody Hq. destruct q as [|x rest]; [done|]. injection Hq as ->.
  eapply first_max_elem. by apply (scan_max key).
Qed.

Lemma fcfs_release_ok i s s' : fcfs_release i s = Some s' → release_ok s s'.
Proof.
  unfold fcfs_release. intros H.
  destruct (resources s !! i) as [r|] eqn:Hr; [|done]. simpl in H.
  rewrite option_guard_decide in H. case_decide; [|done].
  destruct (list_first_entry (waitqueue r)) as [w|] eqn:Hw.
  - rewrite option_guard_decide in H. case_decide; [|done].
    injection H as <-.
    apply (release_tail_ok _ _ _ (set_owner None r)).
    + apply quiet_set_owner.
    + by apply resources_update_eq.
    + by apply head_elem.
  - injection H as <-. left. apply quiet_set_owner.
Qed.

Lemma prio_release_ok i s s' : prio_release i s = Some s' → release_ok s s'.
Proof.
  unfold prio_release. intros H.
  destruct (resources s !! i) as [r|] eqn:Hr; [|done]. simpl in H.
  rewrite option_guard_decide in H. case_decide; [|done].
  destruct (list_first_entry (waitqueue r)) as [w|] eqn:Hw.
  - cbv zeta in H. rewrite option_guard_decide in H. case_decide; [|done].
    injection H as <-.
    apply (release_tail_ok _ _ _ (set_owner None r)).
    + apply quiet_set_owner.
    + by apply resources_update_eq.
    + simpl. by apply (scan_elem
        (λ p, prio (procs (update_resource i (set_owner None) s) p))).
  - injection H as <-. left. apply quiet_set_owner.
Qed.

Lemma pcp_release_ok i s s' : pcp_release i s = Some s' → release_ok s s'.
Proof.
  unfold pcp_release. intros H.
  destruct (resources s !! i) as [r|] eqn:Hr; [|done]. simpl in H.
  rewrite option_guard_decide in H. case_decide; [|done].
  destruct (current s) as [c|] eqn:Hc; [|done]. simpl in H.
  assert (Hq : quiet s (update_resource i (set_owner None)
                          (update c (λ p, set_prio (prio_orig p) p) s))).
  { eapply quiet_trans; [|apply quiet_set_owner].
    apply (quiet_set_prio c prio_orig). }
  destruct (list_first_entry (waitqueue r)) as [w|] eqn:Hw.
  - rewrite option_guard_decide in H. case_decide; [|done].
    injection H as <-.
    apply (release_tail_ok _ _ _ (set_owner None r)).
    + done.
    + by apply resources_update_eq.
    + by apply head_elem.
  - injection H as <-. by left.
Qed.

Lemma pip_release_ok i s s' : pip_release i s = Some s' → release_ok s s'.
Proof.
  unfold pip_release. intros H.
  destruct (resources s !! i) as [r|] eqn:Hr; [|done]. simpl in H.
  rewrite option_guard_decide in H. case_decide; [|done].
  destruct (owner r) as [o|] eqn:Ho; [|done]. simpl in H.
  destruct (current s) as [c|] eqn:Hc; [|done]. simpl in H.
  set (s2 := update_resource i (set_owner None)
               (update o (set_prio (prio_orig (procs s c))) s)) in *.
  assert (Hq : quiet s s2).
  { eapply quiet_trans; [|apply quiet_set_owner].
    apply (quiet_set_prio o (λ _, prio_orig (procs s c))). }
  destruct (list_first_entry (waitqueue r)) as [w|] eqn:Hw.
  - cbv zeta in H. rewrite option_guard_decide in H. case_decide; [|done].
    injection H as <-.
    apply (release_tail_ok _ _ _ (set_owner None r)).
    + done.
    + by apply resources_update_eq.
    + simpl. by apply (scan_elem (λ p, prio (procs s2 p))).
  - injection H as <-. by left.
Qed.

Lemma picked_taken_min key q s r : picked_min key q s r → taken q r.1 r.2.
Proof.
  intros [[-> ->]|(n & l1 & l2 & -> & _ & _ & ->)]; simpl; [done|].
  by exists l1, l2.
Qed.

Lemma picked_taken_max key q s r : picked_max key q s r → taken q r.1 r.2.
Proof.
  intros [[-> ->]|(n & l1 & l2 & -> & _ & _ & ->)]; simpl; [done|].
  by exists l1, l2.
Qed.

Lemma picked_taken_head q s r : picked_head q s r → taken q r.1 r.2.
Proof.
  unfold picked_head. destruct q as [|n q]; intros ->; simpl; [done|].
  by exists [], q.
Qed.

Lemma picked_frame_min key q s r :
  picked_min key q s r →
  current r.2 = current s ∧ resources r.2 = resources s ∧ same_life s r.2.
Proof.
  intros [[-> ->]|(n & l1 & l2 & -> & _ & _ & ->)]; simpl;
    split_and!; done.
Qed.

Lemma picked_frame_max key q s r :
  picked_max key q s r →
  current r.2 = current s ∧ resources r.2 = resources s ∧ same_life s r.2.
Proof.
  intros [[-> ->]|(n & l1 & l2 & -> & _ & _ & ->)]; simpl;
    split_and!; done.
Qed.

Lemma picked_frame_head q s r :
  picked_head q s r →
  current r.2 = current s ∧ resources r.2 = resources s ∧ same_life s r.2.
Proof.
  unfold picked_head. destruct q as [|n q]; intros ->; simpl;
    split_and!; done.
Qed.

Lemma requeued_None s : continues s = None → requeued s = readyqueue s.
Proof. unfold requeued. by intros ->. Qed.

Lemma keep_sched_ok (pick : state → option pid * state) s :
  (∀ s, taken (readyqueue s) (pick s).1 (pick s).2
        ∧ current (pick s).2 = current s
        ∧ resources (pick s).2 = resources s
        ∧ same_life s (pick s).2) →
  sched_ok s (match continues s with
              | Some c => (Some c, s)
              | None => pick s
              end).
Proof.
  intros Hpick. destruct (continues s) as [c|] eqn:Hc.
  - split; [left; by exists c|]. split_and!; try done.
  - destruct (Hpick s) as (Ht & Hrest). split; [|done].
    right. by rewrite requeued_None.
Qed.

Lemma requeue_sched_ok (pick : state → option pid * state) s :
  (∀ s, taken (readyqueue s) (pick s).1 (pick s).2
        ∧ current (pick s).2 = current s
        ∧ resources (pick s).2 = resources s
        ∧ same_life s (pick s).2) →
  sched_ok s (pick (with_readyqueue (requeued s) s)).
Proof.
  intros Hpick.
  destruct (Hpick (with_readyqueue (requeued s) s)) as (Ht & Hrest).
  split; [by right|done].
Qed.

Lemma fifo_schedule_ok s : sched_ok s (fifo_schedule s).
Proof.
  unfold fifo_schedule. rewrite (schedule_keep_shape fifo_pick_next).
  apply keep_sched_ok. intros s0. split.
  - apply (picked_taken_head _ s0), rr_pick_next_spec.
  - apply (picked_frame_head _ _ _ (rr_pick_next_spec s0)).
Qed.

Lemma sjf_schedule_ok s : sched_ok s (sjf_schedule s).
Proof.
  unfold sjf_schedule. rewrite (schedule_keep_shape sjf_pick_next).
  apply keep_sched_ok. intros s0. split.
  - eapply picked_taken_min, sjf_pick_next_spec.
  - eapply picked_frame_min, sjf_pick_next_spec.
Qed.

Lemma srtf_schedule_ok s : sched_ok s (srtf_schedule s).
Proof.
  unfold srtf_schedule. rewrite (schedule_requeue_shape srtf_pick_next).
  apply requeue_sched_ok. intros s0. split.
  - eapply picked_taken_min, srtf_pick_next_spec.
  - eapply picked_frame_min, srtf_pick_next_spec.
Qed.

Lemma rr_schedule_ok s : sched_ok s (rr_schedule s).
Proof.
  unfold rr_schedule. rewrite (schedule_requeue_shape rr_pick_next).
  apply requeue_sched_ok. intros s0. split.
  - eapply picked_taken_head, rr_pick_next_spec.
  - eapply picked_frame_head, rr_pick_next_spec.
Qed.

Lemma prio_schedule_ok s : sched_ok s (prio_schedule s).
Proof.
  unfold prio_schedule. rewrite (schedule_requeue_shape prio_pick_next).
  apply requeue_sched_ok. intros s0. split.
  - eapply picked_taken_max, prio_pick_next_spec.
  - eapply picked_frame_max, prio_pick_next_spec.
Qed.

Lemma pa_schedule_ok s : NoDup (requeued s) → sched_ok s (pa_schedule s).
Proof.
  intros Hnd.
  destruct (pa_schedule_spec s Hnd)
    as [[Hnil ->]|(n & l1 & l2 & s' & -> & E & _ & _ & Hq & Hp & Hc & Hr)].
  - split; [right; simpl|by split_and!].
    split; [done|]. unfold requeued in Hnil.
    destruct (continues s); [by destruct (readyqueue s)|done].
  - split; [right; simpl; by exists l1, l2|]. simpl. split_and!; try done.
    intros p. rewrite Hp. by case_decide.
Qed.

(** Every scheduler of the catalogue, callback by callback. *)
Lemma catalogue_ok (MAX_PRIO : Z) (sch : scheduler) :
  sch ∈ schedulers MAX_PRIO →
  (∀ s, NoDup (requeued s) → sched_ok s (schedule sch s))
  ∧ (∀ i s r, acquire sch i s = Some r → acquire_ok s r)
  ∧ (∀ i s s', release sch i s = Some s' → release_ok s s').
Proof.
  unfold schedulers. rewrite !elem_of_cons, elem_of_nil.
  intros [->|[->|[->|[->|[->|[->|[->|[->|[]]]]]]]]]; simpl;
    (split_and!;
     [intros s Hnd;
      first [apply fifo_schedule_ok | apply sjf_schedule_ok
            | apply srtf_schedule_ok | apply rr_schedule_ok
            | apply prio_schedule_ok | by apply pa_schedule_ok]
     |intros i s r;
      first [apply fcfs_acquire_ok | apply pcp_acquire_ok
            | apply pip_acquire_ok]
     |intros i s s';
      first [apply fcfs_release_ok | apply prio_release_ok
            | apply pcp_release_ok | apply pip_release_ok]]).
Qed.

(** ** The places are kept in order by every call *)

Lemma running_Some s c :
  running s = Some c ↔
  current s = Some c ∧ status (procs s c) = PROCESS_RUNNING.
Proof.
  unfold running. destruct (current s) as [c'|]; simpl; [|naive_solver].
  rewrite option_guard_decide. case_decide; naive_solver.
Qed.

Lemma waiting_boot n : concat (waitqueue <$> replicate n (Resource None [])) = [].
Proof. induction n as [|n IH]; [done|]. csimpl. by rewrite IH. Qed.

Lemma placed_boot n : placed (boot n).
Proof.
  split; unfold queued, waiting; simpl; rewrite ?waiting_boot; try done.
  - constructor.
  - intros p Hp. by apply elem_of_nil in Hp.
  - intros p Hp. by apply elem_of_nil in Hp.
Qed.

(** The current process, when it runs, is in no queue. *)
Lemma placed_running_out m c :
  placed m → status (procs (st m) c) = PROCESS_RUNNING → c ∉ queued (st m).
Proof.
  intros Hm Hc Hin. apply elem_of_app in Hin as [Hin|Hin].
  - apply (placed_ready m Hm) in Hin. congruence.
  - apply (placed_wait m Hm) in Hin. congruence.
Qed.

Lemma placed_same m s' :
  placed m →
  current s' = current (st m) →
  readyqueue s' = readyqueue (st m) →
  waiting s' = waiting (st m) →
  same_life (st m) s' →
  placed (Sim s' (nr_forked m)).
Proof.
  intros Hm Hc Hr Hw Hl.
  assert (Hst : ∀ p, status (procs s' p) = status (procs (st m) p))
    by (intros p; apply Hl).
  assert (Hun : ∀ p, unfinished s' p ↔ unfinished (st m) p).
  { intros p. unfold unfinished. destruct (Hl p) as (_ & -> & ->). done. }
  split; unfold queued; simpl; rewrite ?Hr, ?Hw, ?Hc.
  - apply (placed_nodup m Hm).
  - intros p Hp. rewrite Hst. by apply (placed_ready m Hm).
  - intros p Hp. rewrite Hst. by apply (placed_wait m Hm).
  - intros p Hp. rewrite Hst in Hp. by apply (placed_running m Hm).
  - intros c Hcur. rewrite Hst. by apply (placed_current m Hm).
  - intros p Hp Hu Hs. rewrite Hst in Hs. apply Hun in Hu.
    by apply (placed_live m Hm).
  - apply (placed_created m Hm).
Qed.

Lemma placed_quiet m s' :
  placed m → quiet (st m) s' → placed (Sim s' (nr_forked m)).
Proof.
  intros Hm Hq. pose proof (quiet_waiting _ _ Hq) as Hw.
  destruct Hq as (Hc & Hr & _ & Hl). by apply placed_same.
Qed.

Lemma placed_blocked m c s' :
  placed m → running (st m) = Some c → blocked (st m) c s' →
  placed (Sim s' (nr_forked m)).
Proof.
  intros Hm Hrun (Hc & Hr & Hw & Hst & Hothers & Hlife).
  apply running_Some in Hrun as [Hcur Hrunning].
  pose proof (placed_running_out m c Hm Hrunning) as Hout.
  assert (Hun : ∀ p, unfinished s' p ↔ unfinished (st m) p).
  { intros p. unfold unfinished. destruct (Hlife p) as (-> & ->). done. }
  assert (Hperm : queued s' ≡ₚ c :: queued (st m)).
  { unfold queued. rewrite Hr, Hw. symmetry. apply Permutation_middle. }
  split; simpl.
  - rewrite Hperm. apply NoDup_cons. split; [done|apply (placed_nodup m Hm)].
  - rewrite Hr. intros p Hp.
    rewrite Hothers; [by apply (placed_ready m Hm)|].
    intros ->. apply Hout. apply elem_of_app. by left.
  - intros p Hp. rewrite Hw in Hp. apply elem_of_cons in Hp as [->|Hp]; [done|].
    rewrite Hothers; [by apply (placed_wait m Hm)|].
    intros ->. apply Hout. apply elem_of_app. by right.
  - intros p Hp. destruct (decide (p = c)) as [->|Hne]; [congruence|].
    rewrite Hothers in Hp by done.
    apply (placed_running m Hm) in Hp. congruence.
  - rewrite Hc. intros c' Hc'. assert (c' = c) as -> by congruence.
    split; [congruence|]. by apply (placed_current m Hm).
  - intros p Hp Hu Hs. rewrite Hperm.
    destruct (decide (p = c)) as [->|Hne]; [by left|right].
    rewrite Hothers in Hs by done. apply Hun in Hu.
    by apply (placed_live m Hm).
  - intros p Hp. rewrite Hperm in Hp.
    apply elem_of_cons in Hp as [->|Hp].
    + by apply (placed_current m Hm).
    + by apply (placed_created m Hm).
Qed.

Lemma placed_woken m c w s' :
  placed m → running (st m) = Some c → woken (st m) w s' →
  placed (Sim s' (nr_forked m)).
Proof.
  intros Hm Hrun (Hc & Hr & Hw & Hst & Hothers & Hlife).
  apply running_Some in Hrun as [Hcur Hrunning].
  assert (Hun : ∀ p, unfinished s' p ↔ unfinished (st m) p).
  { intros p. unfold unfinished. destruct (Hlife p) as (-> & ->). done. }
  assert (Hperm : queued s' ≡ₚ queued (st m)).
  { unfold queued. rewrite Hr, Hw. rewrite <- app_assoc. done. }
  assert (Hnd : NoDup (w :: waiting s')).
  { rewrite <- Hw. pose proof (placed_nodup m Hm) as Hnd.
    by apply NoDup_app in Hnd as (_ & _ & ?). }
  apply NoDup_cons in Hnd as [Hw' _].
  assert (Hwin : w ∈ waiting (st m)) by (rewrite Hw; by left).
  assert (Hwc : w ≠ c).
  { intros ->. apply (placed_wait m Hm) in Hwin. congruence. }
  split; simpl.
  - rewrite Hperm. apply (placed_nodup m Hm).
  - rewrite Hr. intros p Hp. apply elem_of_app in Hp as [Hp|Hp].
    + rewrite Hothers; [by apply (placed_ready m Hm)|].
      intros ->. apply (placed_ready m Hm) in Hp.
      apply (placed_wait m Hm) in Hwin. congruence.
    + apply list_elem_of_singleton in Hp as ->. done.
  - intros p Hp. rewrite Hothers by (intros ->; done).
    apply (placed_wait m Hm). rewrite Hw. by right.
  - intros p Hp. destruct (decide (p = w)) as [->|Hne]; [congruence|].
    rewrite Hothers in Hp by done. rewrite Hc.
    by apply (placed_running m Hm).
  - rewrite Hc. intros c' Hc'. assert (c' = c) as -> by congruence.
    rewrite Hothers by done. by apply (placed_current m Hm).
  - intros p Hp Hu Hs. rewrite Hperm.
    destruct (decide (p = w)) as [->|Hne].
    + apply elem_of_app. by right.
    + rewrite Hothers in Hs by done. apply Hun in Hu.
      by apply (placed_live m Hm).
  - intros p Hp. rewrite Hperm in Hp. by apply (placed_created m Hm).
Qed.

Lemma placed_fork life priority m : placed m → placed (fork life priority m).
Proof.
  intros Hm. set (n := nr_forked m).
  assert (Hout : n ∉ queued (st m)).
  { intros Hin. apply (placed_created m Hm) in Hin. unfold n in Hin. lia. }
  assert (Hcur : current (st m) ≠ Some n).
  { intros Hc. apply (placed_current m Hm) in Hc as [_ Hc]. unfold n in Hc. lia. }
  assert (Hold : ∀ p, p ≠ n →
            procs (st (fork life priority m)) p = procs (st m) p).
  { intros p Hp. simpl. by rewrite fn_lookup_insert_ne. }
  assert (Hnew : status (procs (st (fork life priority m)) n) = PROCESS_READY).
  { simpl. by rewrite fn_lookup_insert. }
  assert (Hperm : queued (st (fork life priority m)) ≡ₚ n :: queued (st m)).
  { unfold queued, waiting; simpl. unfold list_add_tail.
    rewrite <- app_assoc. symmetry. apply Permutation_middle. }
  split.
  - rewrite Hperm. apply NoDup_cons. split; [done|apply (placed_nodup m Hm)].
  - intros p Hp. simpl in Hp. apply elem_of_app in Hp as [Hp|Hp].
    + rewrite Hold; [by apply (placed_ready m Hm)|].
      intros ->. apply Hout. apply elem_of_app. by left.
    + by apply list_elem_of_singleton in Hp as ->.
  - intros p Hp. change (waiting (st (fork life priority m)))
      with (waiting (st m)) in Hp.
    rewrite Hold; [by apply (placed_wait m Hm)|].
    intros ->. apply Hout. apply elem_of_app. by right.
  - intros p Hp. destruct (decide (p = n)) as [->|Hne]; [congruence|].
    rewrite Hold in Hp by done. by apply (placed_running m Hm).
  - intros c Hc. change (current (st m) = Some c) in Hc.
    assert (c ≠ n) by (intros Heq; apply Hcur; by rewrite Hc, Heq).
    rewrite Hold by done.
    apply (placed_current m Hm) in Hc as [? ?]. split; [done|]. simpl. lia.
  - intros p Hp Hu Hs. rewrite Hperm.
    destruct (decide (p = n)) as [->|Hne]; [by left|right].
    unfold unfinished in Hu. rewrite Hold in Hu, Hs by done.
    apply (placed_live m Hm); [|done|done]. simpl in Hp. unfold n in Hne. lia.
  - intros p Hp. rewrite Hperm in Hp. simpl.
    apply elem_of_cons in Hp as [->|Hp]; [unfold n; lia|].
    apply (placed_created m Hm) in Hp. lia.
Qed.

Lemma placed_run m c :
  placed m → running (st m) = Some c →
  placed (Sim (update c (λ p, set_age (age p + 1) p) (st m)) (nr_forked m)).
Proof.
  intros Hm Hrun. apply running_Some in Hrun as [Hcur Hrunning].
  set (s' := update c (λ p, set_age (age p + 1) p) (st m)).
  assert (Hst : ∀ p, status (procs s' p) = status (procs (st m) p)).
  { intros p. unfold s'. destruct (decide (c = p)) as [->|Hne];
      [by rewrite procs_update_eq|by rewrite procs_update_ne]. }
  split; cbn [st nr_forked].
  - apply (placed_nodup m Hm).
  - intros p Hp. rewrite Hst. by apply (placed_ready m Hm).
  - intros p Hp. rewrite Hst. by apply (placed_wait m Hm).
  - intros p Hp. rewrite Hst in Hp. by apply (placed_running m Hm).
  - intros c' Hc'. rewrite Hst. by apply (placed_current m Hm).
  - intros p Hp Hu Hs. rewrite Hst in Hs.
    assert (p ≠ c) by congruence.
    unfold unfinished, s' in Hu. rewrite procs_update_ne in Hu by done.
    by apply (placed_live m Hm).
  - apply (placed_created m Hm).
Qed.

(** What the driver leaves after it has installed the answer. *)
Lemma install_obs prev next s :
  let s' := install prev next s in
  current s' = next
  ∧ readyqueue s' = readyqueue s
  ∧ resources s' = resources s
  ∧ (∀ p, age (procs s' p) = age (procs s p)
        ∧ lifespan (procs s' p) = lifespan (procs s p))
  ∧ (∀ p, status (procs s' p)
          = if decide (next = Some p) then PROCESS_RUNNING
            else if decide (prev = Some p
                            ∧ status (procs s p) = PROCESS_RUNNING)
                 then PROCESS_READY
                 else status (procs s p)).
Proof.
  unfold install.
  set (s1 := match prev with
             | Some p =>
                 if bool_decide (status (procs s p) = PROCESS_RUNNING)
                 then update p (set_status PROCESS_READY) s else s
             | None => s
             end).
  assert (H1 : current s1 = current s ∧ readyqueue s1 = readyqueue s
               ∧ resources s1 = resources s
               ∧ (∀ p, age (procs s1 p) = age (procs s p)
                     ∧ lifespan (procs s1 p) = lifespan (procs s p))
               ∧ (∀ p, status (procs s1 p)
                       = if decide (prev = Some p
                                    ∧ status (procs s p) = PROCESS_RUNNING)
                         then PROCESS_READY
                         else status (procs s p))).
  { unfold s1. destruct prev as [q|].
    - case_bool_decide as Hq.
      + split_and!; try done.
        * intros p. destruct (decide (q = p)) as [->|Hne];
            [by rewrite procs_update_eq|by rewrite procs_update_ne].
        * intros p. destruct (decide (q = p)) as [->|Hne].
          -- rewrite procs_update_eq. by rewrite decide_True.
          -- rewrite procs_update_ne by done.
             rewrite decide_False; [done|]. intros [[= ?] _]. done.
      + split_and!; try done; intros p;
          (rewrite decide_False; [done|]); intros [[= ->] ?]; done.
    - split_and!; try done; intros p;
        (rewrite decide_False; [done|]); by intros [? _]. }
  destruct H1 as (Hc & Hr & Hrs & Hl & Hst). simpl.
  destruct next as [n|]; simpl.
  - split_and!; try done.
    + intros p. destruct (decide (n = p)) as [->|Hne];
        [rewrite fn_lookup_alter|rewrite fn_lookup_alter_ne by done];
        apply Hl.
    + intros p. destruct (decide (n = p)) as [->|Hne].
      * rewrite fn_lookup_alter. by rewrite decide_True.
      * rewrite fn_lookup_alter_ne by done.
        rewrite (decide_False (P := Some n = Some p)) by congruence.
        apply Hst.
  - split_and!; try done.
Qed.

(** The queue that the selection walks through has no duplicate either,
    and is made of ready processes and the running one. *)
Lemma placed_requeued m :
  placed m →
  NoDup (requeued (st m) ++ waiting (st m))
  ∧ (∀ p, p ∈ readyqueue (st m) → p ∈ requeued (st m))
  ∧ (∀ p, p ∈ requeued (st m) →
       (p < nr_forked m)%nat
       ∧ (p ∈ readyqueue (st m)
          ∨ status (procs (st m) p) = PROCESS_RUNNING))
  ∧ (∀ p, status (procs (st m) p) = PROCESS_RUNNING →
       unfinished (st m) p → p ∈ requeued (st m)).
Proof.
  intros Hm. unfold requeued.
  destruct (continues (st m)) as [c|] eqn:Hc.
  - apply continues_Some in Hc as (Hcur & Hw & Hu).
    destruct (placed_current m Hm c Hcur) as [Hr Hlt].
    assert (Hrun : status (procs (st m) c) = PROCESS_RUNNING)
      by by destruct (status (procs (st m) c)).
    split_and!.
    + rewrite <- app_assoc. simpl.
      rewrite <- Permutation_middle. apply NoDup_cons. split.
      * by apply placed_running_out.
      * apply (placed_nodup m Hm).
    + intros p Hp. apply elem_of_app. by left.
    + intros p Hp. apply elem_of_app in Hp as [Hp|Hp].
      * split; [|by left]. apply (placed_created m Hm).
        apply elem_of_app. by left.
      * apply list_elem_of_singleton in Hp as ->. split; [done|by right].
    + intros p Hp _. apply (placed_running m Hm) in Hp.
      assert (p = c) as -> by congruence.
      apply elem_of_app. right. by apply list_elem_of_singleton.
  - apply continues_None in Hc. split_and!.
    + apply (placed_nodup m Hm).
    + done.
    + intros p Hp. split; [|by left]. apply (placed_created m Hm).
      apply elem_of_app. by left.
    + intros p Hp Hu. exfalso.
      pose proof (placed_running m Hm p Hp) as Hcur.
      destruct Hc as [Hc|(c & Hc & [Hw|Hf])]; [congruence|..];
        assert (c = p) as -> by congruence; [congruence|done].
Qed.

Lemma placed_install m r :
  placed m → sched_ok (st m) r →
  placed (Sim (install (current (st m)) r.1 r.2) (nr_forked m)).
Proof.
  intros Hm (Hkind & Hcur & Hres & Hlife).
  destruct r as [next s1]. simpl in *.
  destruct (install_obs (current (st m)) next s1)
    as (Ic & Ir & Irs & Il & Is).
  set (s' := install (current (st m)) next s1) in *.
  assert (Hw' : waiting s' = waiting (st m))
    by (unfold waiting; by rewrite Irs, Hres).
  assert (Hun : ∀ p, unfinished s' p ↔ unfinished (st m) p).
  { intros p. unfold unfinished. destruct (Il p) as (-> & ->).
    destruct (Hlife p) as (_ & -> & ->). done. }
  destruct Hkind as [(c & Hc & [= -> ->])|Htaken].
  - (* the current process goes on *)
    apply continues_Some in Hc as (Hc & Hwait & Hu).
    destruct (placed_current m Hm c Hc) as [Hready _].
    apply (placed_same m s' Hm); [by rewrite Ic|done|done|].
    intros p. destruct (Il p) as (-> & ->). split_and!; try done.
    rewrite Is. destruct (decide (Some c = Some p)) as [[= ->]|Hne].
    + by destruct (status (procs (st m) p)).
    + rewrite decide_False; [done|]. intros [? _]. congruence.
  - (* the answer comes out of the queue *)
    destruct (placed_requeued m Hm) as (Hnd & Hsub & Hmem & Hrunning).
    assert (S1 : ∀ p, next = Some p → status (procs s' p) = PROCESS_RUNNING).
    { intros p ->. rewrite Is. by rewrite decide_True. }
    assert (S2 : ∀ p, next ≠ Some p →
              status (procs (st m) p) = PROCESS_RUNNING →
              status (procs s' p) = PROCESS_READY).
    { intros p Hn Hp. rewrite Is. rewrite decide_False by done.
      rewrite decide_True; [done|]. split.
      - by apply (placed_running m Hm).
      - by rewrite (proj1 (Hlife p)). }
    assert (S3 : ∀ p, next ≠ Some p →
              status (procs (st m) p) ≠ PROCESS_RUNNING →
              status (procs s' p) = status (procs (st m) p)).
    { intros p Hn Hp. rewrite Is. rewrite decide_False by done.
      rewrite decide_False; [apply Hlife|].
      intros [_ Hr]. by rewrite (proj1 (Hlife p)) in Hr. }
    assert (K : NoDup (readyqueue s' ++ waiting (st m))
              ∧ (∀ p, p ∈ readyqueue s' →
                   p ∈ requeued (st m) ∧ next ≠ Some p)
              ∧ (∀ p, p ∈ requeued (st m) → next ≠ Some p →
                   p ∈ readyqueue s')
              ∧ (∀ n, next = Some n →
                   n ∈ requeued (st m) ∧ n ∉ waiting (st m))).
    { rewrite Ir. unfold taken in Htaken. destruct next as [n|].
      - destruct Htaken as (l1 & l2 & E & ->). rewrite E in Hnd.
        assert (Hp : (l1 ++ n :: l2) ++ waiting (st m)
                     ≡ₚ n :: (l1 ++ l2) ++ waiting (st m)).
        { rewrite <- !app_assoc. simpl. symmetry. apply Permutation_middle. }
        rewrite Hp in Hnd. apply NoDup_cons in Hnd as [Hn Hnd].
        rewrite E. split_and!.
        + done.
        + intros p Hin. split.
          * apply elem_of_app in Hin as [?|?]; apply elem_of_app;
              [by left|right; by right].
          * intros [= ->]. apply Hn. apply elem_of_app. by left.
        + intros p Hin Hne. apply elem_of_app in Hin as [?|Hin];
            apply elem_of_app; [by left|right].
          apply elem_of_cons in Hin as [->|?]; [done|done].
        + intros ? [= <-]. split.
          * apply elem_of_app. right. by left.
          * intros Hin. apply Hn. apply elem_of_app. by right.
      - destruct Htaken as [E ->]. rewrite E in *.
        split_and!; try done; intros p Hin; by apply elem_of_nil in Hin. }
    destruct K as (K1 & K2 & K3 & K4).
    split; unfold queued; cbn [st nr_forked]; rewrite ?Hw'.
    + done.
    + intros p Hp. destruct (K2 p Hp) as [Hin Hne].
      destruct (Hmem p Hin) as [_ [Hrq|Hrun]].
      * rewrite S3; [by apply (placed_ready m Hm)|done|].
        apply (placed_ready m Hm) in Hrq. congruence.
      * by apply S2.
    + intros p Hp. pose proof (placed_wait m Hm p Hp) as Hs.
      rewrite S3; [done| |congruence].
      intros Hn. by apply (K4 p Hn).
    + intros p Hp. rewrite Ic. destruct (decide (next = Some p)); [done|].
      exfalso. destruct (decide (status (procs (st m) p) = PROCESS_RUNNING)).
      * rewrite S2 in Hp; done.
      * rewrite S3 in Hp; done.
    + rewrite Ic. intros c Hc. split.
      * rewrite (S1 c Hc). done.
      * by apply Hmem, K4.
    + intros p Hp Hu Hs. apply Hun in Hu.
      assert (Hne : next ≠ Some p) by (intros Hn; by rewrite (S1 p Hn) in Hs).
      destruct (decide (status (procs (st m) p) = PROCESS_RUNNING)) as [Hr|Hr].
      * apply elem_of_app. left. apply K3; [|done]. by apply Hrunning.
      * rewrite S3 in Hs by done.
        pose proof (placed_live m Hm p Hp Hu Hs) as Hin.
        apply elem_of_app in Hin as [Hin|Hin]; apply elem_of_app;
          [left|by right].
        apply K3; [|done]. by apply Hsub.
    + intros p Hp. apply elem_of_app in Hp as [Hp|Hp].
      * by apply Hmem, K2.
      * apply (placed_created m Hm). apply elem_of_app. by right.
Qed.

Lemma placed_drive (MAX_PRIO : Z) (sch : scheduler) (e : event) (m m' : sim) :
  sch ∈ schedulers MAX_PRIO → placed m → drive sch e m = Some m' → placed m'.
Proof.
  intros Hsch Hm Hd.
  destruct (catalogue_ok MAX_PRIO sch Hsch) as (Hsched & Hacq & Hrel).
  destruct e as [life priority| | |i|i]; simpl in Hd.
  - injection Hd as <-. by apply placed_fork.
  - injection Hd as <-. apply placed_install; [done|].
    apply Hsched. destruct (placed_requeued m Hm) as [Hnd _].
    by apply NoDup_app in Hnd as [? _].
  - destruct (running (st m)) as [c|] eqn:Hrun; [|done]. simpl in Hd.
    injection Hd as <-. by apply placed_run.
  - destruct (running (st m)) as [c|] eqn:Hrun; [|done]. simpl in Hd.
    destruct (acquire sch i (st m)) as [r|] eqn:Ha; [|done]. simpl in Hd.
    injection Hd as <-. apply Hacq in Ha. unfold acquire_ok in Ha.
    destruct r as [[] s']; simpl in *.
    + by apply placed_quiet.
    + destruct Ha as (c' & Hc' & Hb).
      apply running_Some in Hrun as Hrun'. destruct Hrun' as [Hc _].
      assert (c' = c) as -> by congruence.
      by apply (placed_blocked m c).
  - destruct (running (st m)) as [c|] eqn:Hrun; [|done]. simpl in Hd.
    destruct (release sch i (st m)) as [s'|] eqn:Ha; [|done]. simpl in Hd.
    injection Hd as <-. apply Hrel in Ha as [Hq|(w & Hw)].
    + by apply placed_quiet.
    + by apply (placed_woken m c w).
Qed.

Lemma run_None sch es : foldl (λ acc e, acc ≫= drive sch e) None es = None.
Proof. by induction es. Qed.

Lemma run_cons sch e es m :
  run sch (e :: es) m
  = match drive sch e m with Some m1 => run sch es m1 | None => None end.
Proof.
  unfold run. simpl. destruct (drive sch e m); [done|apply run_None].
Qed.

Lemma placed_run_from (MAX_PRIO : Z) (sch : scheduler) (es : list event)
    (m0 m : sim) :
  sch ∈ schedulers MAX_PRIO → placed m0 → run sch es m0 = Some m → placed m.
Proof.
  intros Hsch. revert m0. induction es as [|e es IH]; intros m0 Hm0 Hrun.
  - by injection Hrun as <-.
  - rewrite run_cons in Hrun.
    destruct (drive sch e m0) as [m1|] eqn:Hd; [|done].
    apply (IH m1); [|done]. by apply (placed_drive MAX_PRIO sch e m0).
Qed.

Lemma occurrences_not_elem p l : p ∉ l → occurrences p l = 0%nat.
Proof.
  unfold occurrences. intros Hp.
  destruct (filter (λ x, x = p) l) as [|y l'] eqn:E; [done|].
  assert (Hy : y ∈ filter (λ x, x = p) l) by (rewrite E; by left).
  apply list_elem_of_filter in Hy as [-> Hy]. done.
Qed.

Lemma occurrences_NoDup p l : NoDup l → (occurrences p l ≤ 1)%nat.
Proof.
  induction 1 as [|x l Hx Hnd IH]; [unfold occurrences; simpl; lia|].
  unfold occurrences in *. rewrite filter_cons.
  case_decide as Hp; simpl; [|done].
  subst x. pose proof (occurrences_not_elem p l Hx) as H0.
  unfold occurrences in H0. lia.
Qed.

Lemma occurrences_elem p l : p ∈ l → (1 ≤ occurrences p l)%nat.
Proof.
  unfold occurrences. induction 1 as [x l|x y l Hin IH].
  - rewrite filter_cons, decide_True by done. simpl. lia.
  - rewrite filter_cons. case_decide; simpl; lia.
Qed.

(** ** Exclusive places (C1) *)

(** C1: for every scheduler of the catalogue and every sequence of calls
    that the driver may issue from the initial state (no process, empty
    ready queue, free resources and empty wait queues), at most one
    process is RUNNING; no process stands twice in the ready queue and
    the wait queues taken together; the RUNNING process stands in none;
    and every created process with [age < lifespan] that is not RUNNING
    stands exactly once in them. *)
Theorem places_exclusive (MAX_PRIO : Z) (sch : scheduler)
    (nr_resources : nat) (es : list event) (m : sim) :
  sch ∈ schedulers MAX_PRIO →
  run sch es (boot nr_resources) = Some m →
  (∀ p q, status (procs (st m) p) = PROCESS_RUNNING →
          status (procs (st m) q) = PROCESS_RUNNING → p = q)
  ∧ (∀ p, (occurrences p (queued (st m)) ≤ 1)%nat)
  ∧ (∀ p, status (procs (st m) p) = PROCESS_RUNNING →
          occurrences p (queued (st m)) = 0%nat)
  ∧ (∀ p, (p < nr_forked m)%nat → unfinished (st m) p →
          status (procs (st m) p) ≠ PROCESS_RUNNING →
          occurrences p (queued (st m)) = 1%nat).
Proof.
  intros Hsch Hrun.
  assert (Hm : placed m).
  { apply (placed_run_from MAX_PRIO sch es (boot nr_resources)); try done.
    apply placed_boot. }
  split_and!.
  - intros p q Hp Hq. apply (placed_running m Hm) in Hp, Hq. congruence.
  - intros p. apply occurrences_NoDup, (placed_nodup m Hm).
  - intros p Hp. apply occurrences_not_elem. by apply placed_running_out.
  - intros p Hp Hu Hs.
    pose proof (occurrences_NoDup p _ (placed_nodup m Hm)).
    pose proof (occurrences_elem p _ (placed_live m Hm p Hp Hu Hs)). lia.
Qed.

(** ** Priority ceiling protocol (C4) *)

Lemma wake_up_owner i w s j :
  owner <$> resources (wake_up i w s) !! j = owner <$> resources s !! j.
Proof.
  unfold wake_up; simpl. destruct (decide (i = j)) as [->|Hne].
  - rewrite list_lookup_alter_eq. by destruct (resources s !! j).
  - by rewrite list_lookup_alter_ne.
Qed.

Lemma wake_up_prio i w s p :
  prio (procs (wake_up i w s) p) = prio (procs s p)
  ∧ prio_orig (procs (wake_up i w s) p) = prio_orig (procs s p).
Proof.
  unfold wake_up; simpl. destruct (decide (w = p)) as [->|Hne];
    [by rewrite fn_lookup_alter|by rewrite fn_lookup_alter_ne].
Qed.

Lemma install_prio prev next s p :
  procs (install prev next s) p = procs s p
  ∨ ∃ st, procs (install prev next s) p = set_status st (procs s p).
Proof.
  unfold install.
  set (s1 := match prev with
             | Some q =>
                 if bool_decide (status (procs s q) = PROCESS_RUNNING)
                 then update q (set_status PROCESS_READY) s else s
             | None => s
             end).
  assert (H1 : procs s1 p = procs s p
               ∨ procs s1 p = set_status PROCESS_READY (procs s p)).
  { unfold s1. destruct prev as [q|]; [|by left].
    case_bool_decide; [|by left].
    destruct (decide (q = p)) as [->|Hne].
    - right. by rewrite procs_update_eq.
    - left. by rewrite procs_update_ne. }
  destruct next as [n|]; simpl.
  - destruct (decide (n = p)) as [->|Hne].
    + right. exists PROCESS_RUNNING. rewrite fn_lookup_alter.
      by destruct H1 as [->| ->].
    + rewrite fn_lookup_alter_ne by done.
      destruct H1 as [->| ->]; [by left|right; by eexists].
  - destruct H1 as [->| ->]; [by left|right; by eexists].
Qed.

Lemma prio_schedule_frame s :
  procs (prio_schedule s).2 = procs s
  ∧ resources (prio_schedule s).2 = resources s.
Proof.
  unfold prio_schedule. rewrite (schedule_requeue_shape prio_pick_next).
  destruct (prio_pick_next_spec (with_readyqueue (requeued s) s))
    as [[_ ->]|(n & l1 & l2 & _ & _ & _ & ->)]; done.
Qed.

Lemma pcp_acquire_effect (MAX_PRIO : Z) i s r0 :
  pcp_acquire MAX_PRIO i s = Some r0 →
  ∃ c ri, current s = Some c ∧ resources s !! i = Some ri
    ∧ (∀ p, prio_orig (procs r0.2 p) = prio_orig (procs s p))
    ∧ (if r0.1
       then owner ri = None
            ∧ resources r0.2 !! i = Some (set_owner (Some c) ri)
            ∧ prio (procs r0.2 c) = MAX_PRIO
            ∧ (∀ p, p ≠ c → prio (procs r0.2 p) = prio (procs s p))
       else is_Some (owner ri)
            ∧ owner <$> resources r0.2 !! i = Some (owner ri)
            ∧ ∀ p, prio (procs r0.2 p) = prio (procs s p))
    ∧ (∀ j, j ≠ i → resources r0.2 !! j = resources s !! j).
Proof.
  unfold pcp_acquire. intros H.
  destruct (resources s !! i) as [ri|] eqn:Hr; [|done]. simpl in H.
  destruct (current s) as [c|] eqn:Hc; [|done]. simpl in H.
  exists c, ri. split; [done|]. split; [done|].
  destruct (owner ri) as [o|] eqn:Ho; injection H as <-; simpl.
  - split_and!.
    + intros p. destruct (decide (c = p)) as [->|Hne];
        [by rewrite fn_lookup_alter|by rewrite fn_lookup_alter_ne].
    + by eexists.
    + rewrite list_lookup_alter_eq, Hr. simpl. by rewrite Ho.
    + intros p. destruct (decide (c = p)) as [->|Hne];
        [by rewrite fn_lookup_alter|by rewrite fn_lookup_alter_ne].
    + intros j Hj. by rewrite list_lookup_alter_ne.
  - split_and!.
    + intros p. destruct (decide (c = p)) as [->|Hne];
        [by rewrite fn_lookup_alter|by rewrite fn_lookup_alter_ne].
    + done.
    + by rewrite list_lookup_alter_eq, Hr.
    + by rewrite fn_lookup_alter.
    + intros p Hp. by rewrite fn_lookup_alter_ne.
    + intros j Hj. by rewrite list_lookup_alter_ne.
Qed.

Lemma pcp_release_effect i s s' :
  pcp_release i s = Some s' →
  ∃ c ri, current s = Some c ∧ resources s !! i = Some ri
    ∧ owner ri = Some c
    ∧ owner <$> resources s' !! i = Some None
    ∧ (∀ j, j ≠ i → owner <$> resources s' !! j = owner <$> resources s !! j)
    ∧ prio (procs s' c) = prio_orig (procs s c)
    ∧ (∀ p, p ≠ c → prio (procs s' p) = prio (procs s p))
    ∧ (∀ p, prio_orig (procs s' p) = prio_orig (procs s p)).
Proof.
  unfold pcp_release. intros H.
  destruct (resources s !! i) as [ri|] eqn:Hr; [|done]. simpl in H.
  rewrite option_guard_decide in H. case_decide as Ho; [|done].
  destruct (current s) as [c|] eqn:Hc; [|done]. simpl in H.
  exists c, ri. split; [done|]. split; [done|]. split; [done|].
  set (s2 := update_resource i (set_owner None)
               (update c (λ p, set_prio (prio_orig p) p) s)) in *.
  assert (H2 : owner <$> resources s2 !! i = Some None
    ∧ (∀ j, j ≠ i → owner <$> resources s2 !! j = owner <$> resources s !! j)
    ∧ prio (procs s2 c) = prio_orig (procs s c)
    ∧ (∀ p, p ≠ c → prio (procs s2 p) = prio (procs s p))
    ∧ (∀ p, prio_orig (procs s2 p) = prio_orig (procs s p))).
  { unfold s2; simpl. split_and!.
    - by rewrite list_lookup_alter_eq, Hr.
    - intros j Hj. by rewrite list_lookup_alter_ne.
    - by rewrite fn_lookup_alter.
    - intros p Hp. by rewrite fn_lookup_alter_ne.
    - intros p. destruct (decide (c = p)) as [->|Hne];
        [by rewrite fn_lookup_alter|by rewrite fn_lookup_alter_ne]. }
  destruct (list_first_entry (waitqueue ri)) as [w|].
  - rewrite option_guard_decide in H. case_decide; [|done].
    injection H as <-. destruct H2 as (A & B & C & D & E).
    split_and!.
    + by rewrite wake_up_owner.
    + intros j Hj. rewrite wake_up_owner. by apply B.
    + by rewrite (proj1 (wake_up_prio _ _ _ _)).
    + intros p Hp. rewrite (proj1 (wake_up_prio _ _ _ _)). by apply D.
    + intros p. by rewrite (proj2 (wake_up_prio _ _ _ _)).
  - by injection H as <-.
Qed.

Lemma pcp_drive_prio_orig (MAX_PRIO : Z) e m m' p :
  drive (pcp_scheduler MAX_PRIO) e m = Some m' → (p < nr_forked m)%nat →
  prio_orig (procs (st m') p) = prio_orig (procs (st m) p).
Proof.
  intros Hd Hp. destruct e as [life priority| | |i|i]; simpl in Hd.
  - injection Hd as <-. simpl. rewrite fn_lookup_insert_ne; [done|lia].
  - injection Hd as <-. simpl.
    destruct (install_prio (current (st m)) (prio_schedule (st m)).1
                (prio_schedule (st m)).2 p) as [->|[st' ->]];
      by rewrite (proj1 (prio_schedule_frame (st m))).
  - destruct (running (st m)) as [c|]; [|done]. injection Hd as <-. simpl.
    destruct (decide (c = p)) as [->|Hne];
      [by rewrite fn_lookup_alter|by rewrite fn_lookup_alter_ne].
  - destruct (running (st m)) as [c|]; [|done]. simpl in Hd.
    destruct (pcp_acquire MAX_PRIO i (st m)) as [r|] eqn:Ha; [|done].
    injection Hd as <-.
    apply pcp_acquire_effect in Ha as (c' & ri & _ & _ & Ho & _). apply Ho.
  - destruct (running (st m)) as [c|]; [|done]. simpl in Hd.
    destruct (pcp_release i (st m)) as [s'|] eqn:Ha; [|done].
    injection Hd as <-.
    apply pcp_release_effect in Ha as (c' & ri & _ & _ & _ & _ & _ & _ & _ & Ho).
    apply Ho.
Qed.

Lemma ceiling_drive (MAX_PRIO : Z) e m m' :
  placed m → ceiling MAX_PRIO m → lone_release m e →
  drive (pcp_scheduler MAX_PRIO) e m = Some m' → ceiling MAX_PRIO m'.
Proof.
  intros Hm Hceil Hlone Hd. destruct e as [life priority| | |i|i]; simpl in Hd.
  - injection Hd as <-. intros j r p Hr Ho. simpl in *.
    destruct (Hceil j r p Hr Ho) as [Hlt Hp]. split; [lia|].
    rewrite fn_lookup_insert_ne; [done|lia].
  - injection Hd as <-. intros j r p Hr Ho. simpl in Hr.
    destruct (install_obs (current (st m)) (prio_schedule (st m)).1
                (prio_schedule (st m)).2) as (_ & _ & Hrs & _).
    rewrite Hrs, (proj2 (prio_schedule_frame (st m))) in Hr.
    destruct (Hceil j r p Hr Ho) as [Hlt Hp]. split; [done|]. simpl.
    destruct (install_prio (current (st m)) (prio_schedule (st m)).1
                (prio_schedule (st m)).2 p) as [->|[st' ->]];
      by rewrite (proj1 (prio_schedule_frame (st m))).
  - destruct (running (st m)) as [c|]; [|done]. injection Hd as <-.
    intros j r p Hr Ho. destruct (Hceil j r p Hr Ho) as [Hlt Hp].
    split; [done|]. simpl.
    destruct (decide (c = p)) as [->|Hne];
      [by rewrite fn_lookup_alter|by rewrite fn_lookup_alter_ne].
  - destruct (running (st m)) as [c0|]; [|done]. simpl in Hd.
    destruct (pcp_acquire MAX_PRIO i (st m)) as [[b s']|] eqn:Ha; [|done].
    injection Hd as <-.
    apply pcp_acquire_effect in Ha as (c & ri & Hc & Hri & _ & Hb & Hother).
    destruct (placed_current m Hm c Hc) as [_ Hclt].
    intros j r p Hr Ho. simpl in *.
    destruct (decide (j = i)) as [->|Hne].
    + destruct b.
      * destruct Hb as (_ & Hri' & Hprio & _).
        rewrite Hri' in Hr. injection Hr as <-. simpl in Ho.
        by injection Ho as <-.
      * destruct Hb as (_ & Hown & Hprio). rewrite Hr in Hown. simpl in Hown.
        injection Hown as Hown. rewrite Ho in Hown.
        destruct (Hceil i ri p Hri (eq_sym Hown)) as [? ?].
        split; [done|]. by rewrite Hprio.
    + rewrite Hother in Hr by done.
      destruct (Hceil j r p Hr Ho) as [? Hp]. split; [done|].
      destruct b.
      * destruct Hb as (_ & _ & Hprio & Hrest).
        destruct (decide (p = c)) as [->|Hpc]; [done|]. by rewrite Hrest.
      * destruct Hb as (_ & _ & Hprio). by rewrite Hprio.
  - destruct (running (st m)) as [c0|]; [|done]. simpl in Hd.
    destruct (pcp_release i (st m)) as [s'|] eqn:Ha; [|done].
    injection Hd as <-.
    apply pcp_release_effect
      in Ha as (c & ri & Hc & Hri & Hown & Hi & Hother & _ & Hprio & _).
    intros j r p Hr Ho. simpl in *.
    destruct (decide (j = i)) as [->|Hne].
    + rewrite Hr in Hi. simpl in Hi. congruence.
    + specialize (Hother j Hne). rewrite Hr in Hother. simpl in Hother.
      destruct (resources (st m) !! j) as [r'|] eqn:Hr'; [|done].
      injection Hother as Hother. rewrite Ho in Hother.
      destruct (Hceil j r' p Hr' (eq_sym Hother)) as [? Hp].
      split; [done|]. rewrite Hprio; [done|].
      intros ->. apply Hne. apply (Hlone j r' Hr'). congruence.
Qed.

Lemma ceiling_boot (MAX_PRIO : Z) n : ceiling MAX_PRIO (boot n).
Proof.
  intros i r p Hr Ho. simpl in Hr.
  apply lookup_replicate in Hr as [-> _]. done.
Qed.

Lemma ceiling_run_from (MAX_PRIO : Z) es m0 m :
  placed m0 → ceiling MAX_PRIO m0 →
  run (pcp_scheduler MAX_PRIO) es m0 = Some m →
  disciplined (pcp_scheduler MAX_PRIO) es m0 →
  placed m ∧ ceiling MAX_PRIO m.
Proof.
  revert m0. induction es as [|e es IH]; intros m0 Hm0 Hc0 Hrun Hdisc.
  - by injection Hrun as <-.
  - rewrite run_cons in Hrun. destruct Hdisc as [Hlone Hdisc].
    destruct (drive (pcp_scheduler MAX_PRIO) e m0) as [m1|] eqn:Hd; [|done].
    apply (IH m1); try done.
    + apply (placed_drive MAX_PRIO (pcp_scheduler MAX_PRIO) e m0); try done.
      unfold schedulers. do 6 right. by left.
    + by apply (ceiling_drive MAX_PRIO e m0).
Qed.

Lemma pcp_drive_keeps_ceiling (MAX_PRIO : Z) e m m' c :
  (c < nr_forked m)%nat → prio (procs (st m) c) = MAX_PRIO →
  match e with Release _ => current (st m) ≠ Some c | _ => True end →
  drive (pcp_scheduler MAX_PRIO) e m = Some m' →
  (c < nr_forked m')%nat ∧ prio (procs (st m') c) = MAX_PRIO.
Proof.
  intros Hlt Hc He Hd. destruct e as [life priority| | |i|i]; simpl in Hd.
  - injection Hd as <-. simpl. split; [lia|].
    rewrite fn_lookup_insert_ne; [done|lia].
  - injection Hd as <-. simpl. split; [done|].
    destruct (install_prio (current (st m)) (prio_schedule (st m)).1
                (prio_schedule (st m)).2 c) as [->|[st' ->]];
      by rewrite (proj1 (prio_schedule_frame (st m))).
  - destruct (running (st m)) as [c0|]; [|done]. injection Hd as <-.
    split; [done|]. simpl.
    destruct (decide (c0 = c)) as [->|Hne];
      [by rewrite fn_lookup_alter|by rewrite fn_lookup_alter_ne].
  - destruct (running (st m)) as [c0|]; [|done]. simpl in Hd.
    destruct (pcp_acquire MAX_PRIO i (st m)) as [[b s']|] eqn:Ha; [|done].
    injection Hd as <-. split; [done|]. simpl.
    apply pcp_acquire_effect in Ha as (c' & ri & _ & _ & _ & Hb & _).
    destruct b; simpl in Hb.
    + destruct Hb as (_ & _ & Hmax & Hrest).
      destruct (decide (c = c')) as [->|Hne]; [done|]. by rewrite Hrest.
    + destruct Hb as (_ & _ & Hrest). by rewrite Hrest.
  - destruct (running (st m)) as [c0|]; [|done]. simpl in Hd.
    destruct (pcp_release i (st m)) as [s'|] eqn:Ha; [|done].
    injection Hd as <-. split; [done|]. simpl.
    apply pcp_release_effect
      in Ha as (c' & ri & Hc' & _ & _ & _ & _ & _ & Hrest & _).
    rewrite Hrest; [done|]. intros ->. by apply He.
Qed.

Lemma pcp_run_keeps_ceiling (MAX_PRIO : Z) es m m' c :
  (c < nr_forked m)%nat → prio (procs (st m) c) = MAX_PRIO →
  run (pcp_scheduler MAX_PRIO) es m = Some m' →
  releases_nothing c (pcp_scheduler MAX_PRIO) es m →
  prio (procs (st m') c) = MAX_PRIO.
Proof.
  revert m. induction es as [|e es IH]; intros m Hlt Hc Hrun Hrel.
  - by injection Hrun as <-.
  - rewrite run_cons in Hrun. destruct Hrel as [He Hrel].
    destruct (drive (pcp_scheduler MAX_PRIO) e m) as [m1|] eqn:Hd; [|done].
    destruct (pcp_drive_keeps_ceiling MAX_PRIO e m m1 c Hlt Hc He Hd)
      as [Hlt1 Hc1].
    by apply (IH m1).
Qed.

(** C4, as the code has it: under PCP, a successful [acquire] makes the
    requester the owner and sets its priority to [MAX_PRIO]; the priority
    stays there, whatever is called, until that process releases a
    resource, any resource; [release] puts the priority of the releasing
    owner back to its [prio_orig] and clears the ownership; and no call
    changes the [prio_orig] of a process.  So, along every run of the
    driver in which no process releases one resource while it owns
    another, every owner of a resource has priority [MAX_PRIO]. *)
Theorem pcp_ceiling_while_holding (MAX_PRIO : Z) (nr_resources : nat)
    (es : list event) (m : sim) :
  run (pcp_scheduler MAX_PRIO) es (boot nr_resources) = Some m →
  (disciplined (pcp_scheduler MAX_PRIO) es (boot nr_resources) →
   ∀ i r p, resources (st m) !! i = Some r → owner r = Some p →
            prio (procs (st m) p) = MAX_PRIO)
  ∧ (∀ i r c m1, resources (st m) !! i = Some r → owner r = None →
       current (st m) = Some c →
       drive (pcp_scheduler MAX_PRIO) (Acquire i) m = Some m1 →
       owner <$> resources (st m1) !! i = Some (Some c)
       ∧ prio (procs (st m1) c) = MAX_PRIO
       ∧ ∀ es' m2, run (pcp_scheduler MAX_PRIO) es' m1 = Some m2 →
           releases_nothing c (pcp_scheduler MAX_PRIO) es' m1 →
           prio (procs (st m2) c) = MAX_PRIO)
  ∧ (∀ i c m1, current (st m) = Some c →
       drive (pcp_scheduler MAX_PRIO) (Release i) m = Some m1 →
       owner <$> resources (st m1) !! i = Some None
       ∧ prio (procs (st m1) c) = prio_orig (procs (st m) c))
  ∧ (∀ e m1 p, (p < nr_forked m)%nat →
       drive (pcp_scheduler MAX_PRIO) e m = Some m1 →
       prio_orig (procs (st m1) p) = prio_orig (procs (st m) p)).
Proof.
  intros Hrun.
  assert (Hm : placed m).
  { apply (placed_run_from MAX_PRIO (pcp_scheduler MAX_PRIO) es
             (boot nr_resources)); [|apply placed_boot|done].
    unfold schedulers. do 6 right. by left. }
  split_and!.
  - intros Hdisc.
    destruct (ceiling_run_from MAX_PRIO es (boot nr_resources) m
                (placed_boot _) (ceiling_boot _ _) Hrun Hdisc) as [_ Hceil].
    intros i r p Hr Ho. by apply (Hceil i r p).
  - intros i r c m1 Hr Ho Hc Hd.
    assert (Hacq : owner <$> resources (st m1) !! i = Some (Some c)
                   ∧ prio (procs (st m1) c) = MAX_PRIO
                   ∧ nr_forked m1 = nr_forked m).
    { simpl in Hd.
      destruct (running (st m)) as [c0|]; [|done]. simpl in Hd.
      destruct (pcp_acquire MAX_PRIO i (st m)) as [[b s']|] eqn:Ha; [|done].
      injection Hd as <-.
      apply pcp_acquire_effect in Ha as (c' & ri & Hc' & Hri & _ & Hb & _).
      assert (c' = c) as -> by congruence.
      assert (ri = r) as -> by congruence.
      destruct b; simpl in *.
      - destruct Hb as (_ & -> & Hprio & _). done.
      - destruct Hb as ([o Ho'] & _). congruence. }
    destruct Hacq as (Hown & Hprio & Hnr). split_and!; try done.
    intros es' m2 Hrun' Hrel.
    apply (pcp_run_keeps_ceiling MAX_PRIO es' m1 m2 c); try done.
    rewrite Hnr. by apply (placed_current m Hm).
  - intros i c m1 Hc Hd. simpl in Hd.
    destruct (running (st m)) as [c0|]; [|done]. simpl in Hd.
    destruct (pcp_release i (st m)) as [s'|] eqn:Ha; [|done].
    injection Hd as <-.
    apply pcp_release_effect
      in Ha as (c' & ri & Hc' & Hri & Hown & Hi & _ & Hprio & _).
    assert (c' = c) as -> by congruence. done.
  - intros e m1 p Hp Hd. by apply (pcp_drive_prio_orig MAX_PRIO e m).
Qed.

(** ** Witnesses and counterexamples *)

(** The invariant of C1 at the end of a round-robin run with a denied
    acquire and a release. *)
Lemma places_exclusive_witness :
  ∃ m, run rr_scheduler rr_block_run (boot 1) = Some m
    ∧ (∀ p q, status (procs (st m) p) = PROCESS_RUNNING →
              status (procs (st m) q) = PROCESS_RUNNING → p = q)
    ∧ (∀ p, (occurrences p (queued (st m)) ≤ 1)%nat)
    ∧ (∀ p, status (procs (st m) p) = PROCESS_RUNNING →
            occurrences p (queued (st m)) = 0%nat)
    ∧ (∀ p, (p < nr_forked m)%nat → unfinished (st m) p →
            status (procs (st m) p) ≠ PROCESS_RUNNING →
            occurrences p (queued (st m)) = 1%nat).
Proof.
  destruct (run rr_scheduler rr_block_run (boot 1)) as [m|] eqn:E.
  - exists m. split; [reflexivity|].
    apply (places_exclusive 64 rr_scheduler 1 rr_block_run m).
    + unfold schedulers. do 3 right. left.
    + exact E.
  - vm_compute in E. discriminate E.
Defined.

(** C3, as it is worded, at a reachable state: P1 owns resource 0 with
    priority 10 when P2, of priority 1, asks for it; the call leaves P1
    with priority 1, which is lower than it had. *)
Lemma pip_acquire_lowers_owner :
  (m ← run pip_scheduler pip_lower_run (boot 2);
   m' ← drive pip_scheduler (Acquire 0%nat) m;
   Some (running (st m), owner <$> resources (st m) !! 0%nat,
         prio (procs (st m) 2%nat), prio (procs (st m) 1%nat),
         prio (procs (st m') 1%nat),
         bool_decide (prio (procs (st m) 1%nat)
                      ≤ prio (procs (st m') 1%nat))))
  = Some (Some 2%nat, Some (Some 1%nat), 1, 10, 1, false).
Proof. vm_compute. reflexivity. Qed.

(** C4, as it is worded, at a reachable state: after P0 has taken
    resources 0 and 1 and released resource 0, it still owns resource 1
    and its priority is its [prio_orig] 0, not the ceiling 64. *)
Lemma pcp_nested_release_drops_ceiling :
  (m ← run (pcp_scheduler 64) pcp_nested_run (boot 2);
   Some (owner <$> resources (st m) !! 1%nat, prio (procs (st m) 0%nat),
         bool_decide (prio (procs (st m) 0%nat) = 64)))
  = Some (Some (Some 0%nat), 0, false).
Proof. vm_compute. reflexivity. Qed.

(** The statement of C4 at the end of a PCP run with a lone release, after
    which P1 owns resource 0. *)
Lemma pcp_ceiling_while_holding_witness :
  ∃ m, run (pcp_scheduler 64) pcp_single_run (boot 1) = Some m
    ∧ (∀ i r p, resources (st m) !! i = Some r → owner r = Some p →
                prio (procs (st m) p) = 64)
    ∧ (∀ i c m1, current (st m) = Some c →
         drive (pcp_scheduler 64) (Release i) m = Some m1 →
         owner <$> resources (st m1) !! i = Some None
         ∧ prio (procs (st m1) c) = prio_orig (procs (st m) c)).
Proof.
  destruct (run (pcp_scheduler 64) pcp_single_run (boot 1)) as [m|] eqn:E.
  - exists m. split; [reflexivity|].
    destruct (pcp_ceiling_while_holding 64 1 pcp_single_run m E)
      as (H1 & _ & H3 & _).
    split; [|exact H3]. apply H1.
    vm_compute. repeat split.
    intros [|j] r Hr _; [reflexivity|]. destruct j; discriminate Hr.
  - vm_compute in E. discriminate E.
Defined.

(** The statement of C5 with P0 running and P1, P2 ready: P1 and P2 gain
    1, and P2, of priority 9, is chosen. *)
Lemma pa_schedule_reset_aging_selection_witness :
  (∀ p, p ∈ readyqueue one_running_two_ready →
     prio (procs (pa_schedule one_running_two_ready).2 p)
     = prio (procs one_running_two_ready p) + 1
     ∧ prio (procs one_running_two_ready p)
       < prio (procs (pa_schedule one_running_two_ready).2 p))
  ∧ (pa_schedule one_running_two_ready).1 = Some 2%nat.
Proof.
  assert (Hnd : NoDup (requeued one_running_two_ready)).
  { apply (bool_decide_unpack _). vm_compute. exact I. }
  destruct (pa_schedule_reset_aging_selection one_running_two_ready Hnd)
    as (_ & H2 & _).
  split; [exact H2|]. vm_compute. reflexivity.
Defined.

(** The statement of C10 with P0 running and P1, P2 ready: P0, of
    [prio_orig] 0 and [prio] 7, leaves the call with priority 1. *)
Lemma pa_schedule_requeued_is_aged_witness :
  ∃ n l1 l2 s', pa_schedule one_running_two_ready = (Some n, s')
    ∧ prio (procs s' 0%nat) = 0 + 1
    ∧ prio_orig (procs s' 0%nat) = 0
    ∧ [1; 2; 0]%nat = l1 ++ n :: l2
    ∧ (∀ x, x ∈ l1 → prio (procs s' x) < prio (procs s' n))
    ∧ (∀ x, x ∈ l2 → prio (procs s' x) ≤ prio (procs s' n))
    ∧ readyqueue s' = l1 ++ l2.
Proof.
  apply (pa_schedule_requeued_is_aged one_running_two_ready 0%nat).
  - apply (bool_decide_unpack _). vm_compute. exact I.
  - vm_compute. reflexivity.
Defined.

(** The statement of C7 when P0 releases resource 0 with P1 and P2
    waiting: P1 is woken. *)
Lemma fcfs_acquire_release_fifo_witness :
  ∃ s', fcfs_release 0%nat owner_and_two_waiters = Some s'
    ∧ resources s' !! 0%nat = Some (Resource None [2%nat])
    ∧ readyqueue s' = [1%nat]
    ∧ procs s' 1%nat = Process PROCESS_READY 0 4 3 3.
Proof.
  destruct (fcfs_acquire_release_fifo 0%nat owner_and_two_waiters
              (Resource (Some 0%nat) [1; 2]%nat) eq_refl)
    as (_ & _ & _ & H4).
  destruct (H4 1%nat [2%nat] eq_refl eq_refl eq_refl)
    as (s' & E & Hr & _ & Hw & _ & Hq & _).
  exists s'. by split_and!.
Defined.

(** The statement of C3 when P0 releases resource 0 with P1 and P2
    waiting: P0 is back at its [prio_orig] 2, and P2, of priority 9, is
    woken. *)
Lemma pip_acquire_release_inheritance_witness :
  ∃ s', pip_release 0%nat owner_and_two_waiters = Some s'
    ∧ prio (procs s' 0%nat) = 2
    ∧ readyqueue s' = [2%nat]
    ∧ resources s' !! 0%nat = Some (Resource None [1%nat]).
Proof.
  destruct (pip_acquire_release_inheritance 0%nat owner_and_two_waiters
              (Resource (Some 0%nat) [1; 2]%nat) eq_refl)
    as (_ & _ & H3).
  destruct (H3 0%nat eq_refl eq_refl) as (s' & E & Hp & _ & _ & Hrest).
  - intros p Hp. simpl in Hp.
    apply elem_of_cons in Hp as [->|Hp]; [reflexivity|].
    apply list_elem_of_singleton in Hp as ->. reflexivity.
  - exists s'. split; [exact E|]. split; [exact Hp|].
    vm_compute in E. injection E as <-. by vm_compute.
Defined.

(** The statement of C6 with P0 running, 4 ticks left, and P1 ready, 4
    ticks to go: the answer comes from the old ready queue. *)
Lemma srtf_schedule_requeue_least_remaining_witness :
  ∃ n l1 l2, readyqueue one_running_two_ready = l1 ++ n :: l2
    ∧ srtf_schedule one_running_two_ready
      = (Some n, with_readyqueue (l1 ++ l2 ++ [0%nat]) one_running_two_ready).
Proof.
  apply (proj2 (srtf_schedule_requeue_least_remaining one_running_two_ready)
           0%nat 1%nat).
  - vm_compute. reflexivity.
  - left.
  - vm_compute. discriminate.
Defined.

(** The statement of C9 with P0 running and unfinished: it goes on,
    though P1 is shorter. *)
Lemma sjf_schedule_non_preemptive_shortest_first_witness :
  sjf_schedule one_running_two_ready = (Some 0%nat, one_running_two_ready).
Proof.
  apply (proj1 (sjf_schedule_non_preemptive_shortest_first
                  one_running_two_ready) 0%nat).
  - reflexivity.
  - vm_compute. discriminate.
  - vm_compute. reflexivity.
Defined.

(** * Further properties of the code *)

(** ** The policies, call by call *)

(** X1: FIFO does not preempt and serves in arrival order: a current
    process that did not block and has [age < lifespan] is answered again
    with nothing changed; otherwise the answer is the head of the ready
    queue, taken out of it, or "none" when the queue is empty, and nothing
    else changes. *)
Theorem fifo_schedule_keeps_or_head (s : state) :
  fifo_schedule s
  = match continues s with
    | Some c => (Some c, s)
    | None =>
        match readyqueue s with
        | [] => (None, s)
        | n :: q => (Some n, with_readyqueue q s)
        end
    end.
Proof.
  unfold fifo_schedule. rewrite (schedule_keep_shape fifo_pick_next).
  destruct (continues s); [done|].
  pose proof (rr_pick_next_spec s) as H. unfold picked_head in H.
  change (rr_pick_next s) with (fifo_pick_next s) in H.
  destruct (readyqueue s) as [|n q] eqn:Hq; [|done].
  by rewrite H, <- Hq, with_readyqueue_id.
Qed.

(** The queue walked through ends with the continuing process. *)
Lemma tail_choice (rq l1 l2 : list pid) (c n : pid) :
  rq ++ [c] = l1 ++ n :: l2 →
  (l2 = [] ∧ n = c ∧ l1 = rq) ∨ ∃ l2', l2 = l2' ++ [c] ∧ rq = l1 ++ n :: l2'.
Proof.
  intros E. destruct l2 as [|y l2 _] using rev_ind.
  - left. apply app_inj_tail in E as [-> ->]. done.
  - right. rewrite app_comm_cons, app_assoc in E.
    apply app_inj_tail in E as [-> ->]. by exists l2.
Qed.

(** X2: the priority policy puts a current process that did not block
    and has [age < lifespan] back at the tail of the ready queue and
    answers with the queued process of the largest priority, the first
    one on equal priorities, changing nothing but the ready queue.  So a
    process that just ran is answered again exactly when every process
    that was ready has a strictly smaller priority: on equal priorities
    the processor goes to the one that waited. *)
Theorem prio_schedule_highest_first (s : state) :
  picked_max (λ p, prio (procs s p)) (requeued s) s (prio_schedule s)
  ∧ (∀ c, continues s = Some c → c ∉ readyqueue s →
       ((prio_schedule s).1 = Some c
        ↔ ∀ x, x ∈ readyqueue s → prio (procs s x) < prio (procs s c))).
Proof.
  assert (Hpick : picked_max (λ p, prio (procs s p)) (requeued s) s
                    (prio_schedule s)).
  { unfold prio_schedule. rewrite (schedule_requeue_shape prio_pick_next).
    apply (prio_pick_next_spec (with_readyqueue (requeued s) s)). }
  split; [done|]. intros c Hc Hout.
  unfold requeued in Hpick. rewrite Hc in Hpick.
  destruct Hpick as [[Hnil _]|(n & l1 & l2 & E & H1 & H2 & ->)].
  { by destruct (readyqueue s). }
  simpl. destruct (tail_choice _ _ _ _ _ E) as [(-> & -> & ->)|(l2' & -> & Erq)].
  - split; [intros _; exact H1|done].
  - split.
    + intros [= ->]. exfalso. apply Hout. rewrite Erq.
      apply elem_of_app. right. by left.
    + intros Hall. exfalso.
      assert (Hn : n ∈ readyqueue s).
      { rewrite Erq. apply elem_of_app. right. by left. }
      specialize (Hall n Hn).
      assert (Hcn : prio (procs s c) ≤ prio (procs s n)).
      { apply H2. apply elem_of_app. right. by apply list_elem_of_singleton. }
      lia.
Qed.

(** X3: with aging, a process that just ran is answered again exactly
    when its [prio_orig] is strictly larger than the priority of every
    process that was ready; whatever priority it had reached does not
    count. *)
Theorem pa_schedule_keeps_iff (s : state) (c : pid) :
  NoDup (requeued s) →
  continues s = Some c →
  ((pa_schedule s).1 = Some c
   ↔ ∀ x, x ∈ readyqueue s → prio (procs s x) < prio_orig (procs s c)).
Proof.
  intros Hnd Hc.
  assert (Hreq : requeued s = readyqueue s ++ [c])
    by (unfold requeued; by rewrite Hc).
  assert (Hout : ∀ x, x ∈ readyqueue s → x ≠ c).
  { intros x Hx ->. rewrite Hreq in Hnd.
    apply NoDup_app in Hnd as (_ & Hd & _). apply (Hd c Hx).
    by apply list_elem_of_singleton. }
  assert (Hec : entering s c = prio_orig (procs s c)).
  { unfold entering. by rewrite decide_True. }
  assert (Hex : ∀ x, x ∈ readyqueue s → entering s x = prio (procs s x)).
  { intros x Hx. unfold entering. rewrite decide_False; [done|].
    rewrite Hc. intros [= ->]. by apply (Hout x). }
  destruct (pa_schedule_spec s Hnd)
    as [[Hnil _]|(n & l1 & l2 & s' & -> & E & H1 & H2 & _)].
  { rewrite Hreq in Hnil. by destruct (readyqueue s). }
  simpl. rewrite Hreq in E.
  destruct (tail_choice _ _ _ _ _ E) as [(-> & -> & ->)|(l2' & -> & Erq)].
  - split; [|done]. intros _ x Hx. rewrite <- Hec, <- (Hex x Hx). by apply H1.
  - assert (Hn : n ∈ readyqueue s).
    { rewrite Erq. apply elem_of_app. right. by left. }
    split.
    + intros [= ->]. by destruct (Hout c Hn).
    + intros Hall. exfalso. specialize (Hall n Hn).
      assert (Hcn : entering s c ≤ entering s n).
      { apply H2. apply elem_of_app. right. by apply list_elem_of_singleton. }
      rewrite Hec, (Hex n Hn) in Hcn. lia.
Qed.

Lemma picked_none_min key q s r : picked_min key q s r → (r.1 = None ↔ q = []).
Proof.
  intros [[-> ->]|(n & l1 & l2 & -> & _ & _ & ->)]; simpl; [done|].
  split; [done|]. by destruct l1.
Qed.

Lemma picked_none_max key q s r : picked_max key q s r → (r.1 = None ↔ q = []).
Proof.
  intros [[-> ->]|(n & l1 & l2 & -> & _ & _ & ->)]; simpl; [done|].
  split; [done|]. by destruct l1.
Qed.

Lemma picked_none_head q s r : picked_head q s r → (r.1 = None ↔ q = []).
Proof. unfold picked_head. by destruct q; intros ->. Qed.

Lemma requeued_nil s : requeued s = [] ↔ continues s = None ∧ readyqueue s = [].
Proof.
  unfold requeued. destruct (continues s); [|naive_solver].
  split; [by destruct (readyqueue s)|by intros [? _]].
Qed.

(** X4: every policy of the catalogue keeps the processor busy: the
    answer is "none" exactly when the ready queue is empty and no current
    process goes on. *)
Theorem schedule_work_conserving (MAX_PRIO : Z) (sch : scheduler) (s : state) :
  sch ∈ schedulers MAX_PRIO →
  ((schedule sch s).1 = None ↔ requeued s = []).
Proof.
  unfold schedulers. rewrite !elem_of_cons, elem_of_nil.
  intros [->|[->|[->|[->|[->|[->|[->|[->|[]]]]]]]]]; simpl.
  - unfold fifo_schedule. rewrite (schedule_keep_shape fifo_pick_next).
    rewrite requeued_nil. destruct (continues s); [naive_solver|].
    rewrite (picked_none_head _ _ _ (rr_pick_next_spec s)). naive_solver.
  - unfold sjf_schedule. rewrite (schedule_keep_shape sjf_pick_next).
    rewrite requeued_nil. destruct (continues s); [naive_solver|].
    rewrite (picked_none_min _ _ _ _ (sjf_pick_next_spec s)). naive_solver.
  - unfold srtf_schedule. rewrite (schedule_requeue_shape srtf_pick_next).
    apply (picked_none_min _ _ _ _
             (srtf_pick_next_spec (with_readyqueue (requeued s) s))).
  - unfold rr_schedule. rewrite (schedule_requeue_shape rr_pick_next).
    apply (picked_none_head _ _ _
             (rr_pick_next_spec (with_readyqueue (requeued s) s))).
  - unfold prio_schedule. rewrite (schedule_requeue_shape prio_pick_next).
    apply (picked_none_max _ _ _ _
             (prio_pick_next_spec (with_readyqueue (requeued s) s))).
  - rewrite pa_schedule_shape, requeued_nil.
    destruct (continues s) as [c|].
    + unfold pa_pick_next, pa_requeue, list_add_tail. simpl.
      destruct (readyqueue s); simpl; naive_solver.
    + unfold pa_pick_next. destruct (readyqueue s); simpl; naive_solver.
  - unfold prio_schedule. rewrite (schedule_requeue_shape prio_pick_next).
    apply (picked_none_max _ _ _ _
             (prio_pick_next_spec (with_readyqueue (requeued s) s))).
  - unfold prio_schedule. rewrite (schedule_requeue_shape prio_pick_next).
    apply (picked_none_max _ _ _ _
             (prio_pick_next_spec (with_readyqueue (requeued s) s))).
Qed.

Lemma set_prio_same (x : process) : set_prio (prio x) x = x.
Proof. by destruct x. Qed.

Lemma picked_procs_min key q s r : picked_min key q s r → procs r.2 = procs s.
Proof. by intros [[_ ->]|(n & l1 & l2 & _ & _ & _ & ->)]. Qed.

Lemma picked_procs_max key q s r : picked_max key q s r → procs r.2 = procs s.
Proof. by intros [[_ ->]|(n & l1 & l2 & _ & _ & _ & ->)]. Qed.

Lemma picked_procs_head q s r : picked_head q s r → procs r.2 = procs s.
Proof. unfold picked_head. by destruct q; intros ->. Qed.

Lemma schedule_only_prio (MAX_PRIO : Z) (sch : scheduler) (s : state) :
  sch ∈ schedulers MAX_PRIO → NoDup (requeued s) →
  ∀ p, ∃ v, procs (schedule sch s).2 p = set_prio v (procs s p).
Proof.
  intros Hsch Hnd p.
  assert (Hsame : ∀ s', procs s' = procs s →
            ∃ v, procs s' p = set_prio v (procs s p)).
  { intros s' ->. exists (prio (procs s p)). by rewrite set_prio_same. }
  revert Hsch. unfold schedulers. rewrite !elem_of_cons, elem_of_nil.
  intros [->|[->|[->|[->|[->|[->|[->|[->|[]]]]]]]]]; simpl.
  - apply Hsame. unfold fifo_schedule.
    rewrite (schedule_keep_shape fifo_pick_next).
    destruct (continues s); [done|].
    apply (picked_procs_head _ _ _ (rr_pick_next_spec s)).
  - apply Hsame. unfold sjf_schedule.
    rewrite (schedule_keep_shape sjf_pick_next).
    destruct (continues s); [done|].
    apply (picked_procs_min _ _ _ _ (sjf_pick_next_spec s)).
  - apply Hsame. unfold srtf_schedule.
    rewrite (schedule_requeue_shape srtf_pick_next).
    apply (picked_procs_min _ _ _ _
             (srtf_pick_next_spec (with_readyqueue (requeued s) s))).
  - apply Hsame. unfold rr_schedule.
    rewrite (schedule_requeue_shape rr_pick_next).
    apply (picked_procs_head _ _ _
             (rr_pick_next_spec (with_readyqueue (requeued s) s))).
  - apply Hsame. apply (proj1 (prio_schedule_frame s)).
  - destruct (pa_schedule_spec s Hnd)
      as [[_ ->]|(n & l1 & l2 & s' & -> & _ & _ & _ & _ & Hp & _)].
    + by apply Hsame.
    + simpl. rewrite Hp. case_decide; [by eexists|].
      exists (prio (procs s p)). by rewrite set_prio_same.
  - apply Hsame. apply (proj1 (prio_schedule_frame s)).
  - apply Hsame. apply (proj1 (prio_schedule_frame s)).
Qed.

(** X5: no policy of the catalogue loses or invents a process: the
    ready queue with the continuing process put back is, up to order, the
    answer together with the ready queue that is left.  The call changes
    neither the current-process slot, nor the resources, nor any field of
    a process other than its priority. *)
Theorem schedule_conserves (MAX_PRIO : Z) (sch : scheduler) (s : state) :
  sch ∈ schedulers MAX_PRIO →
  NoDup (requeued s) →
  requeued s
  ≡ₚ option_list (schedule sch s).1 ++ readyqueue (schedule sch s).2
  ∧ current (schedule sch s).2 = current s
  ∧ resources (schedule sch s).2 = resources s
  ∧ ∀ p, ∃ v, procs (schedule sch s).2 p = set_prio v (procs s p).
Proof.
  intros Hsch Hnd.
  destruct (catalogue_ok MAX_PRIO sch Hsch) as (Hsched & _ & _).
  destruct (Hsched s Hnd) as (Hkind & Hc & Hr & _).
  split_and!; [|done|done|by apply (schedule_only_prio MAX_PRIO)].
  destruct Hkind as [(c & Hcont & ->)|Htaken].
  - simpl. unfold requeued. rewrite Hcont. symmetry.
    apply Permutation_cons_append.
  - unfold taken in Htaken. destruct (schedule sch s) as [[n|] s1]; simpl in *.
    + destruct Htaken as (l1 & l2 & -> & ->). symmetry.
      apply Permutation_middle.
    + by destruct Htaken as [-> ->].
Qed.

(** ** The protocols, call by call *)

(** What the closing lines of a release leave. *)
Lemma wake_up_spec (i : nat) (w : pid) (s : state) (r : resource) :
  resources s !! i = Some r → w ∈ waitqueue r →
  ∃ l1 l2, waitqueue r = l1 ++ w :: l2 ∧ (w ∉ l1)
    ∧ resources (wake_up i w s) !! i = Some (Resource (owner r) (l1 ++ l2))
    ∧ (∀ j, j ≠ i → resources (wake_up i w s) !! j = resources s !! j)
    ∧ readyqueue (wake_up i w s) = readyqueue s ++ [w]
    ∧ current (wake_up i w s) = current s
    ∧ procs (wake_up i w s) w = set_status PROCESS_READY (procs s w)
    ∧ (∀ p, p ≠ w → procs (wake_up i w s) p = procs s p).
Proof.
  intros Hr Hw. apply list_elem_of_split_l in Hw as (l1 & l2 & E & Hn).
  exists l1, l2. split_and!; try done.
  - rewrite (resources_wake_up_eq _ _ _ r Hr). unfold set_waitqueue.
    by rewrite E, list_del_init_middle.
  - intros j Hj. by apply resources_wake_up_ne.
  - unfold wake_up; simpl. apply fn_lookup_alter.
  - intros p Hp. unfold wake_up; simpl. by apply fn_lookup_alter_ne.
Qed.

(** X6: [prio_release] by the owner clears the ownership and, when
    somebody waits, wakes the waiter of the largest priority, the first
    one on equal priorities, whatever its place in the wait queue: that
    waiter leaves the wait queue, turns READY and goes to the tail of the
    ready queue.  No priority changes, and the others keep their order in
    the wait queue. *)
Theorem prio_release_wakes_highest (i : nat) (s : state) (r : resource) :
  resources s !! i = Some r →
  owner r = current s →
  (∀ p, p ∈ waitqueue r → status (procs s p) = PROCESS_WAIT) →
  ∃ s', prio_release i s = Some s'
    ∧ current s' = current s
    ∧ (∀ j, j ≠ i → resources s' !! j = resources s !! j)
    ∧ ((waitqueue r = []
        ∧ resources s' !! i = Some (Resource None [])
        ∧ readyqueue s' = readyqueue s
        ∧ procs s' = procs s)
       ∨ ∃ w l1 l2, waitqueue r = l1 ++ w :: l2
           ∧ (∀ x, x ∈ l1 → prio (procs s x) < prio (procs s w))
           ∧ (∀ x, x ∈ l2 → prio (procs s x) ≤ prio (procs s w))
           ∧ resources s' !! i = Some (Resource None (l1 ++ l2))
           ∧ readyqueue s' = readyqueue s ++ [w]
           ∧ procs s' w = set_status PROCESS_READY (procs s w)
           ∧ ∀ p, p ≠ w → procs s' p = procs s p).
Proof.
  intros Hr Ho Hwait. unfold prio_release. rewrite Hr; simpl.
  rewrite option_guard_True by done.
  set (s1 := update_resource i (set_owner None) s).
  assert (Hr1 : resources s1 !! i = Some (set_owner None r))
    by by apply resources_update_eq.
  destruct (waitqueue r) as [|first rest] eqn:Hq.
  - simpl. eexists. split; [done|]. split_and!; try done.
    + intros j Hj. by apply resources_update_ne.
    + left. split_and!; try done. rewrite Hr1. unfold set_owner.
      by rewrite Hq.
  - change (list_first_entry (first :: rest)) with (Some first).
    cbv iota beta zeta.
    pose proof (pip_scan_spec s1 first rest) as Hmax.
    set (w := list_for_each_entry_safe _ (first :: rest) first) in *.
    rewrite option_guard_True by (apply Hwait; by eapply first_max_elem).
    eexists. split; [done|].
    apply first_max_del in Hmax as (l1 & l2 & E & Hdel & H1 & H2).
    split_and!; try done.
    + intros j Hj. rewrite resources_wake_up_ne by done.
      by apply resources_update_ne.
    + right. exists w, l1, l2. split_and!; try done.
      * rewrite (resources_wake_up_eq _ _ _ (set_owner None r)) by done.
        simpl. rewrite Hq. by rewrite Hdel.
      * unfold wake_up; simpl. apply fn_lookup_alter.
      * intros p Hp. unfold wake_up; simpl. by apply fn_lookup_alter_ne.
Qed.

(** X7: under PCP, [acquire] by the current process on a free resource
    makes it the owner with priority [MAX_PRIO] and answers true; on an
    owned resource it marks the requester WAITING at the tail of the wait
    queue, answers false and changes no priority, the owner's included.
    [release] by the owner sets its priority to its [prio_orig], clears
    the ownership and wakes the head of the wait queue, whatever the
    priorities of the waiters. *)
Theorem pcp_acquire_release_calls (MAX_PRIO : Z) (i : nat) (s : state)
    (r : resource) (c : pid) :
  resources s !! i = Some r →
  current s = Some c →
  (owner r = None →
   ∃ s', pcp_acquire MAX_PRIO i s = Some (true, s')
     ∧ resources s' !! i = Some (Resource (Some c) (waitqueue r))
     ∧ procs s' c = set_prio MAX_PRIO (procs s c)
     ∧ (∀ p, p ≠ c → procs s' p = procs s p)
     ∧ readyqueue s' = readyqueue s)
  ∧ (is_Some (owner r) →
     ∃ s', pcp_acquire MAX_PRIO i s = Some (false, s')
       ∧ resources s' !! i = Some (Resource (owner r) (waitqueue r ++ [c]))
       ∧ procs s' c = set_status PROCESS_WAIT (procs s c)
       ∧ (∀ p, p ≠ c → procs s' p = procs s p)
       ∧ readyqueue s' = readyqueue s)
  ∧ (owner r = Some c → waitqueue r = [] →
     ∃ s', pcp_release i s = Some s'
       ∧ resources s' !! i = Some (Resource None [])
       ∧ procs s' c = set_prio (prio_orig (procs s c)) (procs s c)
       ∧ (∀ p, p ≠ c → procs s' p = procs s p)
       ∧ readyqueue s' = readyqueue s)
  ∧ (∀ w rest, owner r = Some c → waitqueue r = w :: rest →
     status (procs s w) = PROCESS_WAIT →
     ∃ s', pcp_release i s = Some s'
       ∧ resources s' !! i = Some (Resource None rest)
       ∧ prio (procs s' c) = prio_orig (procs s c)
       ∧ status (procs s' w) = PROCESS_READY
       ∧ (∀ p, p ≠ c → prio (procs s' p) = prio (procs s p))
       ∧ (∀ p, p ≠ w → status (procs s' p) = status (procs s p))
       ∧ readyqueue s' = readyqueue s ++ [w]).
Proof.
  intros Hr Hc. split_and!.
  - intros Ho. unfold pcp_acquire. rewrite Hr, Hc; simpl. rewrite Ho.
    eexists. split; [done|]. split_and!; try done.
    + simpl. rewrite list_lookup_alter_eq, Hr. done.
    + simpl. apply fn_lookup_alter.
    + intros p Hp. simpl. by apply fn_lookup_alter_ne.
  - intros [o Ho]. unfold pcp_acquire. rewrite Hr, Hc; simpl. rewrite Ho.
    eexists. split; [done|]. split_and!; try done.
    + simpl. rewrite list_lookup_alter_eq, Hr. simpl.
      unfold set_waitqueue, list_add_tail. by rewrite Ho.
    + simpl. apply fn_lookup_alter.
    + intros p Hp. simpl. by apply fn_lookup_alter_ne.
  - intros Ho Hq. unfold pcp_release. rewrite Hr; simpl.
    rewrite option_guard_True by congruence. rewrite Hc; simpl.
    rewrite Hq; simpl. eexists. split; [done|]. split_and!; try done.
    + simpl. rewrite list_lookup_alter_eq, Hr. simpl.
      unfold set_owner. by rewrite Hq.
    + simpl. by rewrite fn_lookup_alter.
    + intros p Hp. simpl. by apply fn_lookup_alter_ne.
  - intros w rest Ho Hq Hw. unfold pcp_release. rewrite Hr; simpl.
    rewrite option_guard_True by congruence. rewrite Hc; simpl.
    set (s2 := update_resource i (set_owner None)
                 (update c (λ p, set_prio (prio_orig p) p) s)).
    assert (Hst : ∀ p, status (procs s2 p) = status (procs s p)).
    { intros p. simpl. destruct (decide (c = p)) as [->|Hne];
        [by rewrite fn_lookup_alter|by rewrite fn_lookup_alter_ne]. }
    assert (Hr2 : resources s2 !! i = Some (set_owner None r))
      by by apply resources_update_eq.
    rewrite Hq. change (list_first_entry (w :: rest)) with (Some w).
    cbv iota beta.
    rewrite option_guard_True by (etrans; [apply (Hst w)|done]).
    eexists. split; [done|].
    destruct (wake_up_spec i w s2 (set_owner None r) Hr2)
      as (l1 & l2 & E & Hn & Hres & _ & Hrq & _ & Hpw & Hpo).
    { simpl. rewrite Hq. by left. }
    assert (l1 = [] ∧ l2 = rest) as [-> ->].
    { simpl in E. rewrite Hq in E. destruct l1 as [|y l1].
      - by injection E as <-.
      - injection E as -> _. exfalso. apply Hn. by left. }
    assert (Hprio : ∀ p, prio (procs (wake_up i w s2) p) = prio (procs s2 p)).
    { intros p. apply wake_up_prio. }
    split_and!; try done.
    + rewrite Hprio. simpl. by rewrite fn_lookup_alter.
    + by rewrite Hpw.
    + intros p Hp. rewrite Hprio. simpl. by rewrite fn_lookup_alter_ne.
    + intros p Hp. rewrite Hpo by done. apply Hst.
Qed.


Lemma fcfs_acquire_shape i s r b s' :
  resources s !! i = Some r → fcfs_acquire i s = Some (b, s') →
  (b = true ↔ owner r = None)
  ∧ owner <$> resources s' !! i
    = Some (if b then current s else owner r)
  ∧ waitqueue <$> resources s' !! i
    = Some (if b then waitqueue r else waitqueue r ++ option_list (current s))
  ∧ (∀ j, j ≠ i → resources s' !! j = resources s !! j)
  ∧ readyqueue s' = readyqueue s ∧ current s' = current s.
Proof.
  intros Hr. unfold fcfs_acquire. rewrite Hr; simpl.
  destruct (owner r) as [o|] eqn:Ho.
  - destruct (current s) as [c|] eqn:Hc; [|done]. simpl.
    intros [= <- <-]. simpl. rewrite list_lookup_alter_eq, Hr. simpl.
    rewrite ?Hc, ?Ho. split_and!; try done.
    intros j Hj. by rewrite list_lookup_alter_ne.
  - intros [= <- <-]. simpl. rewrite list_lookup_alter_eq, Hr. simpl.
    rewrite ?Ho. split_and!; try done.
    intros j Hj. by rewrite list_lookup_alter_ne.
Qed.

Lemma pcp_acquire_shape v i s r b s' :
  resources s !! i = Some r → pcp_acquire v i s = Some (b, s') →
  (b = true ↔ owner r = None)
  ∧ owner <$> resources s' !! i
    = Some (if b then current s else owner r)
  ∧ waitqueue <$> resources s' !! i
    = Some (if b then waitqueue r else waitqueue r ++ option_list (current s))
  ∧ (∀ j, j ≠ i → resources s' !! j = resources s !! j)
  ∧ readyqueue s' = readyqueue s ∧ current s' = current s.
Proof.
  intros Hr. unfold pcp_acquire. rewrite Hr; simpl.
  destruct (current s) as [c|] eqn:Hc; [|done]. simpl.
  destruct (owner r) as [o|] eqn:Ho.
  - intros [= <- <-]. simpl. rewrite list_lookup_alter_eq, Hr. simpl.
    rewrite ?Hc, ?Ho. split_and!; try done.
    intros j Hj. by rewrite list_lookup_alter_ne.
  - intros [= <- <-]. simpl. rewrite list_lookup_alter_eq, Hr. simpl.
    rewrite ?Hc, ?Ho. split_and!; try done.
    intros j Hj. by rewrite list_lookup_alter_ne.
Qed.

Lemma pip_acquire_shape i s r b s' :
  resources s !! i = Some r → pip_acquire i s = Some (b, s') →
  (b = true ↔ owner r = None)
  ∧ owner <$> resources s' !! i
    = Some (if b then current s else owner r)
  ∧ waitqueue <$> resources s' !! i
    = Some (if b then waitqueue r else waitqueue r ++ option_list (current s))
  ∧ (∀ j, j ≠ i → resources s' !! j = resources s !! j)
  ∧ readyqueue s' = readyqueue s ∧ current s' = current s.
Proof.
  intros Hr. unfold pip_acquire. rewrite Hr; simpl.
  destruct (owner r) as [o|] eqn:Ho.
  - destruct (current s) as [c|] eqn:Hc; [|done]. simpl.
    intros [= <- <-]. simpl. rewrite list_lookup_alter_eq, Hr. simpl.
    rewrite ?Hc, ?Ho. split_and!; try done.
    intros j Hj. by rewrite list_lookup_alter_ne.
  - intros [= <- <-]. simpl. rewrite list_lookup_alter_eq, Hr. simpl.
    rewrite ?Ho. split_and!; try done.
    intros j Hj. by rewrite list_lookup_alter_ne.
Qed.

(** X9: whatever the scheduler of the catalogue, [acquire] answers true
    exactly when the resource was free, and then the current process is
    the owner and the wait queue is as it was; on an owned resource the
    owner stays the owner and the requester is one more entry at the tail
    of the wait queue.  The other resources, the ready queue and the
    current-process slot are not touched. *)
Theorem acquire_admits_iff_free (MAX_PRIO : Z) (sch : scheduler) (i : nat)
    (s : state) (r : resource) (b : bool) (s' : state) :
  sch ∈ schedulers MAX_PRIO →
  resources s !! i = Some r →
  acquire sch i s = Some (b, s') →
  (b = true ↔ owner r = None)
  ∧ owner <$> resources s' !! i
    = Some (if b then current s else owner r)
  ∧ waitqueue <$> resources s' !! i
    = Some (if b then waitqueue r else waitqueue r ++ option_list (current s))
  ∧ (∀ j, j ≠ i → resources s' !! j = resources s !! j)
  ∧ readyqueue s' = readyqueue s ∧ current s' = current s.
Proof.
  unfold schedulers. rewrite !elem_of_cons, elem_of_nil.
  intros [->|[->|[->|[->|[->|[->|[->|[->|[]]]]]]]]] Hr; simpl;
    first [by apply fcfs_acquire_shape | by apply pcp_acquire_shape
          | by apply pip_acquire_shape].
Qed.

Lemma fcfs_release_course i s r s' :
  resources s !! i = Some r → fcfs_release i s = Some s' →
  release_course i s r s'.
Proof.
  intros Hr. unfold fcfs_release. rewrite Hr; simpl.
  rewrite option_guard_decide. case_decide as Ho; [|done]. split; [done|].
  exists (update_resource i (set_owner None) s). split_and!; try done.
  destruct (waitqueue r) as [|w rest] eqn:Hq.
  - left. split; [done|]. by injection H as <-.
  - right. exists w. simpl in H.
    rewrite option_guard_decide in H. case_decide; [|done].
    injection H as <-. split_and!; [by left|done|done].
Qed.

Lemma prio_release_course i s r s' :
  resources s !! i = Some r → prio_release i s = Some s' →
  release_course i s r s'.
Proof.
  intros Hr. unfold prio_release. rewrite Hr; simpl.
  rewrite option_guard_decide. case_decide as Ho; [|done]. split; [done|].
  exists (update_resource i (set_owner None) s). split_and!; try done.
  destruct (list_first_entry (waitqueue r)) as [first|] eqn:Hq.
  - right. cbv zeta in H.
    rewrite option_guard_decide in H. case_decide; [|done].
    injection H as <-. eexists. split_and!; [|done|done].
    by apply (scan_elem
      (λ p, prio (procs (update_resource i (set_owner None) s) p))).
  - left. split; [by destruct (waitqueue r)|]. by injection H as <-.
Qed.

Lemma pcp_release_course i s r s' :
  resources s !! i = Some r → pcp_release i s = Some s' →
  release_course i s r s'.
Proof.
  intros Hr. unfold pcp_release. rewrite Hr; simpl.
  rewrite option_guard_decide. case_decide as Ho; [|done]. split; [done|].
  destruct (current s) as [c|] eqn:Hc; [|done]. simpl in H.
  exists (update_resource i (set_owner None)
            (update c (λ p, set_prio (prio_orig p) p) s)).
  split_and!; try done.
  { intros p. simpl. destruct (decide (c = p)) as [->|Hne];
      [by rewrite fn_lookup_alter|by rewrite fn_lookup_alter_ne]. }
  destruct (waitqueue r) as [|w rest] eqn:Hq.
  - left. split; [done|]. by injection H as <-.
  - right. exists w. simpl in H.
    rewrite option_guard_decide in H. case_decide; [|done].
    injection H as <-. split_and!; [by left|done|done].
Qed.

Lemma pip_release_course i s r s' :
  resources s !! i = Some r → pip_release i s = Some s' →
  release_course i s r s'.
Proof.
  intros Hr. unfold pip_release. rewrite Hr; simpl.
  rewrite option_guard_decide. case_decide as Ho; [|done]. split; [done|].
  destruct (owner r) as [o|] eqn:Hor; [|done]. simpl in H.
  destruct (current s) as [c|] eqn:Hc; [|done]. simpl in H.
  set (s2 := update_resource i (set_owner None)
               (update o (set_prio (prio_orig (procs s c))) s)) in *.
  exists s2. split_and!; try done.
  { intros p. simpl. destruct (decide (o = p)) as [->|Hne];
      [by rewrite fn_lookup_alter|by rewrite fn_lookup_alter_ne]. }
  destruct (list_first_entry (waitqueue r)) as [first|] eqn:Hq.
  - right. cbv zeta in H.
    rewrite option_guard_decide in H. case_decide; [|done].
    injection H as <-. eexists. split_and!; [|done|done].
    by apply (scan_elem (λ p, prio (procs s2 p))).
  - left. split; [by destruct (waitqueue r)|]. by injection H as <-.
Qed.

(** X10: whatever the scheduler of the catalogue, a release that goes
    through was called by the owner, leaves the resource free and wakes
    one waiter at most: a member of the wait queue of that resource, which
    was WAITING, leaves the wait queue, is READY and at the tail of the
    ready queue.  The woken process does not get the resource, the other
    waiters keep their order, nobody else changes status, and the other
    resources are not touched. *)
Theorem release_frees_wakes_one (MAX_PRIO : Z) (sch : scheduler) (i : nat)
    (s : state) (r : resource) (s' : state) :
  sch ∈ schedulers MAX_PRIO →
  resources s !! i = Some r →
  release sch i s = Some s' →
  owner r = current s
  ∧ current s' = current s
  ∧ (∀ j, j ≠ i → resources s' !! j = resources s !! j)
  ∧ ((waitqueue r = []
      ∧ resources s' !! i = Some (Resource None [])
      ∧ readyqueue s' = readyqueue s
      ∧ ∀ p, status (procs s' p) = status (procs s p))
     ∨ ∃ w l1 l2, waitqueue r = l1 ++ w :: l2 ∧ (w ∉ l1)
         ∧ resources s' !! i = Some (Resource None (l1 ++ l2))
         ∧ readyqueue s' = readyqueue s ++ [w]
         ∧ status (procs s w) = PROCESS_WAIT
         ∧ status (procs s' w) = PROCESS_READY
         ∧ ∀ p, p ≠ w → status (procs s' p) = status (procs s p)).
Proof.
  intros Hsch Hr Hrel.
  assert (Hcourse : release_course i s r s').
  { revert Hsch Hrel. unfold schedulers. rewrite !elem_of_cons, elem_of_nil.
    intros [->|[->|[->|[->|[->|[->|[->|[->|[]]]]]]]]]; simpl;
      first [by apply fcfs_release_course | by apply prio_release_course
            | by apply pcp_release_course | by apply pip_release_course]. }
  destruct Hcourse as (Ho & s2 & Hst & Hc & Hq & Hrs & Hend).
  assert (Hr2 : resources s2 !! i = Some (set_owner None r)).
  { by rewrite Hrs, list_lookup_alter_eq, Hr. }
  assert (Hother : ∀ j, j ≠ i → resources s2 !! j = resources s !! j).
  { intros j Hj. rewrite Hrs. by apply list_lookup_alter_ne. }
  split; [done|].
  destruct Hend as [[Hnil ->]|(w & Hw & Hwait & ->)].
  - split_and!; try done. left. split_and!; try done.
    rewrite Hr2. unfold set_owner. by rewrite Hnil.
  - destruct (wake_up_spec i w s2 (set_owner None r) Hr2 Hw)
      as (l1 & l2 & E & Hn & Hres & Hoth & Hrq & Hcur & Hpw & Hpo).
    split_and!.
    + by rewrite Hcur.
    + intros j Hj. rewrite Hoth by done. by apply Hother.
    + right. exists w, l1, l2. split_and!; try done.
      * by rewrite Hrq, Hq.
      * by rewrite <- Hst.
      * by rewrite Hpw.
      * intros p Hp. rewrite Hpo by done. apply Hst.
Qed.

(** ** The callbacks under the driver *)

Lemma elem_of_waiting s i r p :
  resources s !! i = Some r → p ∈ waitqueue r → p ∈ waiting s.
Proof.
  intros Hr Hp. unfold waiting.
  destruct (waiting_split _ _ _ Hr) as (A & B & -> & _).
  apply elem_of_app. right. apply elem_of_app. by left.
Qed.

Lemma acquire_succeeds (MAX_PRIO : Z) (sch : scheduler) i s r c :
  sch ∈ schedulers MAX_PRIO →
  resources s !! i = Some r → current s = Some c →
  is_Some (acquire sch i s).
Proof.
  intros Hsch Hr Hc.
  assert (H3 : is_Some (fcfs_acquire i s)
               ∧ is_Some (pcp_acquire MAX_PRIO i s)
               ∧ is_Some (pip_acquire i s)).
  { unfold fcfs_acquire, pcp_acquire, pip_acquire. rewrite Hr, Hc. simpl.
    destruct (owner r); simpl; by split_and!. }
  destruct H3 as (H1 & H2 & H3).
  revert Hsch. unfold schedulers. rewrite !elem_of_cons, elem_of_nil.
  by intros [->|[->|[->|[->|[->|[->|[->|[->|[]]]]]]]]].
Qed.

Lemma release_succeeds (MAX_PRIO : Z) (sch : scheduler) i s r c :
  sch ∈ schedulers MAX_PRIO →
  resources s !! i = Some r → owner r = Some c → current s = Some c →
  (∀ p, p ∈ waitqueue r → status (procs s p) = PROCESS_WAIT) →
  is_Some (release sch i s).
Proof.
  intros Hsch Hr Ho Hc Hwait.
  assert (Hguard : ∀ (s2 : state) (w : pid),
            (∀ p, status (procs s2 p) = status (procs s p)) →
            w ∈ waitqueue r →
            is_Some (guard (status (procs s2 w) = PROCESS_WAIT);;
                     Some (wake_up i w s2))).
  { intros s2 w Hst Hw. rewrite option_guard_True; [done|].
    rewrite Hst. by apply Hwait. }
  assert (Hprio : ∀ q (f : process → Z) p,
            status (procs (update_resource i (set_owner None)
                             (update q (λ x, set_prio (f x) x) s)) p)
            = status (procs s p)).
  { intros q f p. simpl. destruct (decide (q = p)) as [->|Hne];
      [by rewrite fn_lookup_alter|by rewrite fn_lookup_alter_ne]. }
  assert (H4 : is_Some (fcfs_release i s) ∧ is_Some (prio_release i s)
               ∧ is_Some (pcp_release i s) ∧ is_Some (pip_release i s)).
  { unfold fcfs_release, prio_release, pcp_release, pip_release.
    rewrite Hr; simpl. rewrite !option_guard_True by congruence.
    rewrite Ho, Hc; simpl.
    destruct (waitqueue r) as [|first rest] eqn:Hq; [by split_and!|].
    change (list_first_entry (first :: rest)) with (Some first).
    cbv iota beta zeta.
    set (s1 := update_resource i (set_owner None) s).
    set (s2 := update_resource i (set_owner None)
                 (update c (λ p, set_prio (prio_orig p) p) s)).
    set (s3 := update_resource i (set_owner None)
                 (update c (set_prio (prio_orig (procs s c))) s)).
    split_and!.
    - apply (Hguard s1); [done|by left].
    - apply (Hguard s1); [done|].
      by apply (scan_elem (λ p, prio (procs s1 p))).
    - apply (Hguard s2); [|by left]. apply (Hprio c prio_orig).
    - apply (Hguard s3);
        [apply (Hprio c (λ _, prio_orig (procs s c)))|].
      by apply (scan_elem (λ p, prio (procs s3 p))). }
  destruct H4 as (H1 & H2 & H3 & H4).
  revert Hsch. unfold schedulers. rewrite !elem_of_cons, elem_of_nil.
  by intros [->|[->|[->|[->|[->|[->|[->|[->|[]]]]]]]]].
Qed.

(** X11: in every state that the driver reaches from the initial state,
    with any scheduler of the catalogue, a call of [acquire] by the
    running process for a resource of the table goes through, and so does
    a call of [release] by the running process for a resource it owns:
    the [assert] on the status of the woken waiter never fails. *)
Theorem driver_calls_go_through (MAX_PRIO : Z) (sch : scheduler)
    (nr_resources : nat) (es : list event) (m : sim) (c : pid) (i : nat)
    (r : resource) :
  sch ∈ schedulers MAX_PRIO →
  run sch es (boot nr_resources) = Some m →
  running (st m) = Some c →
  resources (st m) !! i = Some r →
  is_Some (drive sch (Acquire i) m)
  ∧ (owner r = Some c → is_Some (drive sch (Release i) m)).
Proof.
  intros Hsch Hrun Hc Hr.
  assert (Hm : placed m).
  { apply (placed_run_from MAX_PRIO sch es (boot nr_resources)); try done.
    apply placed_boot. }
  apply running_Some in Hc as Hc'. destruct Hc' as [Hcur _].
  split.
  - simpl. rewrite Hc. simpl.
    destruct (acquire_succeeds MAX_PRIO sch i (st m) r c Hsch Hr Hcur)
      as [x ->]. done.
  - intros Ho. simpl. rewrite Hc. simpl.
    destruct (release_succeeds MAX_PRIO sch i (st m) r c Hsch Hr Ho Hcur)
      as [x ->]; [|done].
    intros p Hp. apply (placed_wait m Hm). by eapply elem_of_waiting.
Qed.

Lemma tick_keep sch m c :
  running (st m) = Some c →
  schedule sch (st m) = (Some c, st m) →
  ∃ m2, tick sch m = Some (Some c, m2)
    ∧ running (st m2) = Some c
    ∧ age (procs (st m2) c) = age (procs (st m) c) + 1
    ∧ lifespan (procs (st m2) c) = lifespan (procs (st m) c)
    ∧ readyqueue (st m2) = readyqueue (st m)
    ∧ resources (st m2) = resources (st m).
Proof.
  intros Hrun Hsched. apply running_Some in Hrun as [Hc Hst].
  destruct (install_obs (current (st m)) (Some c) (st m))
    as (Ic & Ir & Irs & Il & Is).
  set (s1 := install (current (st m)) (Some c) (st m)) in *.
  assert (Hd1 : drive sch Schedule m = Some (Sim s1 (nr_forked m)))
    by (unfold drive; by rewrite Hsched).
  clearbody s1.
  assert (Hrun1 : running s1 = Some c).
  { apply running_Some. split; [done|]. rewrite Is. by rewrite decide_True. }
  unfold tick. rewrite Hd1. simpl. rewrite Ic. simpl.
  rewrite Hrun1. simpl. eexists. split; [done|]. simpl.
  destruct (Il c) as [Ha Hl]. split_and!.
  - apply running_Some. simpl. split; [done|].
    rewrite fn_lookup_alter. simpl. apply running_Some in Hrun1. apply Hrun1.
  - rewrite fn_lookup_alter. simpl. by rewrite Ha.
  - rewrite fn_lookup_alter. simpl. by rewrite Hl.
  - done.
  - done.
Qed.

(** X12: FIFO and SJF run a process to its end: when the running process
    has at least [k] ticks of lifetime left, it is the one that runs in
    each of the next [k] ticks of the driver, whatever waits in the ready
    queue, which stays as it is. *)
Theorem non_preemptive_run_to_completion (sch : scheduler) (k : nat)
    (m : sim) (c : pid) :
  sch = fifo_scheduler ∨ sch = sjf_scheduler →
  running (st m) = Some c →
  age (procs (st m) c) + Z.of_nat k ≤ lifespan (procs (st m) c) →
  ∃ m', ticks sch k m = Some (replicate k (Some c), m')
    ∧ running (st m') = Some c
    ∧ age (procs (st m') c) = age (procs (st m) c) + Z.of_nat k
    ∧ readyqueue (st m') = readyqueue (st m)
    ∧ resources (st m') = resources (st m).
Proof.
  intros Hsch. revert m. induction k as [|k IH]; intros m Hrun Hleft.
  - exists m. simpl. split_and!; try done. lia.
  - assert (Hcont : continues (st m) = Some c).
    { apply running_Some in Hrun as [Hc Hst]. apply continues_Some.
      split_and!; [done|congruence|unfold unfinished; lia]. }
    assert (Hsched : schedule sch (st m) = (Some c, st m)).
    { destruct Hsch as [-> | ->]; simpl.
      - unfold fifo_schedule. rewrite (schedule_keep_shape fifo_pick_next).
        by rewrite Hcont.
      - unfold sjf_schedule. rewrite (schedule_keep_shape sjf_pick_next).
        by rewrite Hcont. }
    destruct (tick_keep sch m c Hrun Hsched)
      as (m2 & Htick & Hrun2 & Hage & Hlife & Hrq & Hrs).
    destruct (IH m2 Hrun2) as (m' & Hticks & Hrun' & Hage' & Hrq' & Hrs').
    { rewrite Hage, Hlife. lia. }
    exists m'. simpl. rewrite Htick. simpl. rewrite Hticks. simpl.
    split_and!; try done; try congruence. rewrite Hage', Hage. lia.
Qed.

(** X13: when the process that just ran may go on and is not queued,
    round-robin answers it again exactly when nobody is ready, and SRTF
    exactly when every ready process has strictly more time left than
    it. *)
Theorem preemption_criteria (s : state) (c : pid) :
  continues s = Some c →
  c ∉ readyqueue s →
  ((rr_schedule s).1 = Some c ↔ readyqueue s = [])
  ∧ ((srtf_schedule s).1 = Some c
     ↔ ∀ x, x ∈ readyqueue s →
         lifespan (procs s c) - age (procs s c)
         < lifespan (procs s x) - age (procs s x)).
Proof.
  intros Hc Hout.
  assert (Hreq : requeued s = readyqueue s ++ [c])
    by (unfold requeued; by rewrite Hc).
  split.
  - assert (Hpick : picked_head (requeued s) s (rr_schedule s)).
    { unfold rr_schedule. rewrite (schedule_requeue_shape rr_pick_next).
      apply (rr_pick_next_spec (with_readyqueue (requeued s) s)). }
    rewrite Hreq in Hpick. unfold picked_head in Hpick.
    destruct (readyqueue s) as [|n q]; simpl in Hpick; rewrite Hpick; simpl.
    + done.
    + split; [|done]. intros [= ->]. exfalso. apply Hout. by left.
  - assert (Hpick : picked_min (λ p, lifespan (procs s p) - age (procs s p))
                      (requeued s) s (srtf_schedule s)).
    { unfold srtf_schedule. rewrite (schedule_requeue_shape srtf_pick_next).
      apply (srtf_pick_next_spec (with_readyqueue (requeued s) s)). }
    rewrite Hreq in Hpick.
    destruct Hpick as [[Hnil _]|(n & l1 & l2 & E & H1 & H2 & ->)].
    { by destruct (readyqueue s). }
    simpl.
    destruct (tail_choice _ _ _ _ _ E) as [(-> & -> & ->)|(l2' & -> & Erq)].
    + split; [intros _; exact H1|done].
    + assert (Hn : n ∈ readyqueue s).
      { rewrite Erq. apply elem_of_app. right. by left. }
      split.
      * intros [= ->]. by destruct Hout.
      * intros Hall. exfalso. specialize (Hall n Hn).
        assert (Hcn : lifespan (procs s n) - age (procs s n)
                      ≤ lifespan (procs s c) - age (procs s c)).
        { apply H2. apply elem_of_app. right.
          by apply list_elem_of_singleton. }
        lia.
Qed.

Lemma pa_scan_resources (q : list pid) (acc : state * pid) :
  resources (list_for_each_entry_safe pa_scan_body q acc).1 = resources acc.1
  ∧ readyqueue (list_for_each_entry_safe pa_scan_body q acc).1
    = readyqueue acc.1.
Proof.
  revert acc. induction q as [|x q IH]; intros acc; [done|].
  unfold list_for_each_entry_safe in *. simpl.
  destruct (IH (pa_scan_body acc x)) as [-> ->]. done.
Qed.

Lemma schedule_resources (MAX_PRIO : Z) (sch : scheduler) (s : state) :
  sch ∈ schedulers MAX_PRIO → resources (schedule sch s).2 = resources s.
Proof.
  assert (Hpa : ∀ s0, resources (pa_pick_next s0).2 = resources s0).
  { intros s0. unfold pa_pick_next.
    destruct (list_first_entry (readyqueue s0)); [|done]. simpl.
    apply (pa_scan_resources (readyqueue s0) (s0, p)). }
  unfold schedulers. rewrite !elem_of_cons, elem_of_nil.
  intros [->|[->|[->|[->|[->|[->|[->|[->|[]]]]]]]]]; simpl.
  - apply fifo_schedule_ok.
  - apply sjf_schedule_ok.
  - apply srtf_schedule_ok.
  - apply rr_schedule_ok.
  - apply prio_schedule_ok.
  - rewrite pa_schedule_shape. destruct (continues s); by rewrite Hpa.
  - apply prio_schedule_ok.
  - apply prio_schedule_ok.
Qed.

(** X14: a process leaves a wait queue by a release only, and the ready
    queue by a schedule only: with any scheduler of the catalogue, every
    member of a wait queue is still a member of one after any call of the
    driver that is not a release, and after any call that is not a
    schedule the ready queue starts with what it was, in the same
    order. *)
Theorem queues_keep_their_members (MAX_PRIO : Z) (sch : scheduler)
    (e : event) (m m' : sim) :
  sch ∈ schedulers MAX_PRIO →
  drive sch e m = Some m' →
  ((∀ i, e ≠ Release i) →
   ∀ p, p ∈ waiting (st m) → p ∈ waiting (st m'))
  ∧ (e ≠ Schedule → readyqueue (st m) `prefix_of` readyqueue (st m')).
Proof.
  intros Hsch Hd.
  destruct (catalogue_ok MAX_PRIO sch Hsch) as (_ & Hacq & Hrel).
  destruct e as [life priority| | |i|i]; simpl in Hd.
  - injection Hd as <-. split; [done|]. intros _. simpl.
    by apply prefix_app_r.
  - injection Hd as <-. split; [|done]. intros _ p Hp.
    destruct (install_obs (current (st m)) (schedule sch (st m)).1
                (schedule sch (st m)).2) as (_ & _ & Hrs & _).
    unfold waiting in *. simpl. rewrite Hrs.
    by rewrite (schedule_resources MAX_PRIO sch (st m) Hsch).
  - destruct (running (st m)) as [c|]; [|done]. injection Hd as <-. done.
  - destruct (running (st m)) as [c|]; [|done]. simpl in Hd.
    destruct (acquire sch i (st m)) as [r|] eqn:Ha; [|done].
    injection Hd as <-. apply Hacq in Ha. unfold acquire_ok in Ha.
    destruct r as [[] s']; simpl in *.
    + pose proof (quiet_waiting _ _ Ha) as Hw.
      destruct Ha as (_ & -> & _). by rewrite Hw.
    + destruct Ha as (c' & _ & _ & -> & Hw & _). split; [|done].
      intros _ p Hp. rewrite Hw. by right.
  - destruct (running (st m)) as [c|]; [|done]. simpl in Hd.
    destruct (release sch i (st m)) as [s'|] eqn:Ha; [|done].
    injection Hd as <-. split; [intros Hno; by destruct (Hno i)|].
    intros _. simpl. apply Hrel in Ha as [(_ & -> & _)|(w & _ & -> & _)].
    + done.
    + by apply prefix_app_r.
Qed.

(** ** Witnesses of the further properties *)

(** X3 with P0 running and P1, P2 ready. *)
Lemma pa_schedule_keeps_iff_witness :
  (pa_schedule one_running_two_ready).1 = Some 0%nat
  ↔ ∀ x, x ∈ readyqueue one_running_two_ready →
      prio (procs one_running_two_ready x)
      < prio_orig (procs one_running_two_ready 0%nat).
Proof.
  apply (pa_schedule_keeps_iff one_running_two_ready 0%nat).
  - apply (bool_decide_unpack _). vm_compute. exact I.
  - vm_compute. reflexivity.
Defined.

(** X4 for the aging policy with P0 running and P1, P2 ready. *)
Lemma schedule_work_conserving_witness :
  (schedule pa_scheduler one_running_two_ready).1 = None
  ↔ requeued one_running_two_ready = [].
Proof.
  apply (schedule_work_conserving 64 pa_scheduler one_running_two_ready).
  unfold schedulers. do 5 right. left.
Defined.

(** X5 for SRTF with P0 running and P1, P2 ready. *)
Lemma schedule_conserves_witness :
  requeued one_running_two_ready
  ≡ₚ option_list (schedule srtf_scheduler one_running_two_ready).1
     ++ readyqueue (schedule srtf_scheduler one_running_two_ready).2.
Proof.
  apply (schedule_conserves 64 srtf_scheduler one_running_two_ready).
  - unfold schedulers. do 2 right. left.
  - apply (bool_decide_unpack _). vm_compute. exact I.
Defined.

(** X6 when P0 releases resource 0 with P1 and P2 waiting. *)
Lemma prio_release_wakes_highest_witness :
  is_Some (prio_release 0%nat owner_and_two_waiters).
Proof.
  destruct (prio_release_wakes_highest 0%nat owner_and_two_waiters
              (Resource (Some 0%nat) [1; 2]%nat) eq_refl eq_refl)
    as (s' & E & _).
  - intros p Hp. simpl in Hp.
    apply elem_of_cons in Hp as [->|Hp]; [reflexivity|].
    apply list_elem_of_singleton in Hp as ->. reflexivity.
  - rewrite E. by exists s'.
Defined.

(** X7 when P0 releases resource 0 with P1 and P2 waiting. *)
Lemma pcp_acquire_release_calls_witness :
  ∃ s', pcp_release 0%nat owner_and_two_waiters = Some s'
    ∧ resources s' !! 0%nat = Some (Resource None [2%nat])
    ∧ prio (procs s' 0%nat) = 2
    ∧ readyqueue s' = [1%nat].
Proof.
  destruct (pcp_acquire_release_calls 64 0%nat owner_and_two_waiters
              (Resource (Some 0%nat) [1; 2]%nat) 0%nat eq_refl eq_refl)
    as (_ & _ & _ & H4).
  destruct (H4 1%nat [2%nat] eq_refl eq_refl eq_refl)
    as (s' & E & Hr & Hp & _ & _ & _ & Hq).
  exists s'. by split_and!.
Defined.


(** X9 when the owner P0 asks again for resource 0 under PIP. *)
Lemma acquire_admits_iff_free_witness :
  ∃ b s', acquire pip_scheduler 0%nat owner_and_two_waiters = Some (b, s')
    ∧ (b = true ↔ owner (Resource (Some 0%nat) [1; 2]%nat) = None)
    ∧ owner <$> resources s' !! 0%nat
      = Some (if b then current owner_and_two_waiters else Some 0%nat).
Proof.
  destruct (acquire pip_scheduler 0%nat owner_and_two_waiters)
    as [[b s']|] eqn:E.
  - exists b, s'. split; [reflexivity|].
    destruct (acquire_admits_iff_free 64 pip_scheduler 0%nat
                owner_and_two_waiters (Resource (Some 0%nat) [1; 2]%nat)
                b s') as (H1 & H2 & _).
    + unfold schedulers. do 7 right. left.
    + reflexivity.
    + exact E.
    + by split.
  - vm_compute in E. discriminate E.
Defined.

(** X10 when P0 releases resource 0 under FIFO with P1 and P2 waiting. *)
Lemma release_frees_wakes_one_witness :
  ∃ s', release fifo_scheduler 0%nat owner_and_two_waiters = Some s'
    ∧ current s' = current owner_and_two_waiters.
Proof.
  destruct (release fifo_scheduler 0%nat owner_and_two_waiters)
    as [s'|] eqn:E.
  - exists s'. split; [reflexivity|].
    destruct (release_frees_wakes_one 64 fifo_scheduler 0%nat
                owner_and_two_waiters (Resource (Some 0%nat) [1; 2]%nat) s')
      as (_ & H2 & _).
    + unfold schedulers. left.
    + reflexivity.
    + exact E.
    + exact H2.
  - vm_compute in E. discriminate E.
Defined.

(** X11 at the end of the round-robin run, where P1 runs and resource 0
    is free. *)
Lemma driver_calls_go_through_witness :
  ∃ m, run rr_scheduler rr_block_run (boot 1) = Some m
    ∧ is_Some (drive rr_scheduler (Acquire 0%nat) m).
Proof.
  destruct (run rr_scheduler rr_block_run (boot 1)) as [m|] eqn:E.
  - exists m. split; [reflexivity|].
    pose proof E as E'. vm_compute in E'. injection E' as <-.
    apply (driver_calls_go_through 64 rr_scheduler 1 rr_block_run _
             1%nat 0%nat (Resource None [])).
    + unfold schedulers. do 3 right. left.
    + exact E.
    + vm_compute. reflexivity.
    + vm_compute. reflexivity.
  - vm_compute in E. discriminate E.
Defined.

(** X12 under FIFO with P0 running, four ticks left, and P1, P2 ready. *)
Lemma non_preemptive_run_to_completion_witness :
  ∃ m', ticks fifo_scheduler 4 (Sim one_running_two_ready 3)
        = Some (replicate 4 (Some 0%nat), m')
    ∧ running (st m') = Some 0%nat
    ∧ age (procs (st m') 0%nat) = 1 + 4
    ∧ readyqueue (st m') = [1; 2]%nat
    ∧ resources (st m') = [Resource None []].
Proof.
  apply (non_preemptive_run_to_completion fifo_scheduler 4
           (Sim one_running_two_ready 3) 0%nat).
  - by left.
  - vm_compute. reflexivity.
  - vm_compute. discriminate.
Defined.

(** X13 with P0 running and P1, P2 ready. *)
Lemma preemption_criteria_witness :
  ((rr_schedule one_running_two_ready).1 = Some 0%nat
   ↔ readyqueue one_running_two_ready = [])
  ∧ ((srtf_schedule one_running_two_ready).1 = Some 0%nat
     ↔ ∀ x, x ∈ readyqueue one_running_two_ready →
         lifespan (procs one_running_two_ready 0%nat)
         - age (procs one_running_two_ready 0%nat)
         < lifespan (procs one_running_two_ready x)
           - age (procs one_running_two_ready x)).
Proof.
  apply (preemption_criteria one_running_two_ready 0%nat).
  - vm_compute. reflexivity.
  - apply (bool_decide_unpack _). vm_compute. exact I.
Defined.

(** X14 when the owner P0 asks again for resource 0 under FIFO. *)
Lemma queues_keep_their_members_witness :
  ∃ m', drive fifo_scheduler (Acquire 0%nat) (Sim owner_and_two_waiters 3)
        = Some m'
    ∧ readyqueue owner_and_two_waiters `prefix_of` readyqueue (st m').
Proof.
  destruct (drive fifo_scheduler (Acquire 0%nat)
              (Sim owner_and_two_waiters 3)) as [m'|] eqn:E.
  - exists m'. split; [reflexivity|].
    destruct (queues_keep_their_members 64 fifo_scheduler (Acquire 0%nat)
                (Sim owner_and_two_waiters 3) m') as [_ H2].
    + unfold schedulers. left.
    + exact E.
    + apply H2. discriminate.
  - vm_compute in E. discriminate E.
Defined.

(** X2 with P0 running and P1, P2 ready. *)
Lemma prio_schedule_highest_first_witness :
  (prio_schedule one_running_two_ready).1 = Some 0%nat
  ↔ ∀ x, x ∈ readyqueue one_running_two_ready →
      prio (procs one_running_two_ready x)
      < prio (procs one_running_two_ready 0%nat).
Proof.
  apply (proj2 (prio_schedule_highest_first one_running_two_ready) 0%nat).
  - vm_compute. reflexivity.
  - apply (bool_decide_unpack _). vm_compute. exact I.
Defined.
